(** * lucid.maplayout: hierarchical directional layout

    A shallow embedding of [src/lucid/maplayout.py] and the properties of its
    tree builder, position calculator, layout driver, connector renderer and
    group composite.

    Conventions of the embedding.
    - Coordinates and sizes are rationals ([Q]); Python's [/ 2.0] is the
      exact division by two, [==] on numbers is [Qeq_bool].
    - A [DiagramNode] object is identified by its [idx] inside the store that
      [build_tree] creates (one object per key of [shapes]); the Python test
      [node in some_list] compares object identities, here ids.
    - Python dictionaries keep insertion order: they are association lists.
    - Exceptions are values of [exn]; a function that can raise returns a
      [result].
    - The Qt scene is an external collaborator.  The layout driver is written
      against the interface [Canvas]; [QtScene] is an instance that follows
      the documented behaviour of QGraphicsItemGroup for proxy widgets. *)

From Stdlib Require Import QArith Qminmax Lqa Lia List String Ascii Bool Arith Permutation.
Import ListNotations.
Local Open Scope Q_scope.

(* ================================================================== *)
(** * Anchor directions *)
(* ================================================================== *)

Inductive Direction : Type :=
  d_n | d_s | d_e | d_w | d_ne | d_nw | d_se | d_sw.

Definition Direction_eqb (a b : Direction) : bool :=
  match a, b with
  | d_n, d_n | d_s, d_s | d_e, d_e | d_w, d_w
  | d_ne, d_ne | d_nw, d_nw | d_se, d_se | d_sw, d_sw => true
  | _, _ => false
  end.

(** The key of a direction as it is written in the layout dictionaries. *)
Definition dir_str (d : Direction) : string :=
  match d with
  | d_n => "n" | d_s => "s" | d_e => "e" | d_w => "w"
  | d_ne => "ne" | d_nw => "nw" | d_se => "se" | d_sw => "sw"
  end%string.

(** Python's [c in text] on strings. *)
Definition str_in (c : string) (d : Direction) : bool :=
  match index 0 c (dir_str d) with
  | Some _ => true
  | None => false
  end.

(** Modelled from the spec: [maploader._INVERT_DIRECTION], the inversion
    table of the eight anchor directions (maploader is not part of the
    sources): invert(n)=s, invert(e)=w, invert(ne)=sw, invert(nw)=se, and
    symmetric. *)
Definition _INVERT_DIRECTION (d : Direction) : Direction :=
  match d with
  | d_n => d_s | d_s => d_n | d_e => d_w | d_w => d_e
  | d_ne => d_sw | d_sw => d_ne | d_nw => d_se | d_se => d_nw
  end.

(* ================================================================== *)
(** * Position calculator *)
(* ================================================================== *)

(** The eight numbers returned by [DiagramNode.get_bounding_rect]: scene
    position of the shape, size of its widget, scene bounding rectangle of
    its group. *)
Record BoundingRect : Type := mkBR {
  br_x : Q; br_y : Q; br_w : Q; br_h : Q;
  br_g_x : Q; br_g_y : Q; br_g_w : Q; br_g_h : Q
}.

Definition Qneq_bool (a b : Q) : bool := negb (Qeq_bool a b).

(** [calculate_position]; its two first lines read the bounding rectangles of
    [parent] and [node], which are the arguments [P] and [N] here. *)
Definition calculate_position (P N : BoundingRect) (direction : Direction)
    (min_spacing : Q) (parent_to_node : bool) : Q * Q :=
  let p_x := br_x P in let p_y := br_y P in
  let p_w := br_w P in let p_h := br_h P in
  let n_x := br_x N in let n_y := br_y N in
  let n_w := br_w N in let n_h := br_h N in
  let n_g_y := br_g_y N in
  let n_g_w := br_g_w N in let n_g_h := br_g_h N in
  let spacing_x := 0 in
  let spacing_y := 0 in
  if parent_to_node then
    let inv_dir := _INVERT_DIRECTION direction in
    let x := n_x in
    let y := n_y in
    let spacing_x :=
      if str_in "e" inv_dir then (if Qeq_bool n_x 0 then n_g_w - n_w else 0)
      else if str_in "w" inv_dir then (if Qneq_bool n_x 0 then n_g_w - n_w else 0)
      else spacing_x in
    if str_in "n" inv_dir || str_in "s" inv_dir then
      let x :=
        if str_in "e" inv_dir then x + (n_w + spacing_x + min_spacing)
        else if str_in "w" inv_dir then x + (- min_spacing - spacing_x - p_w)
        else x + (n_w / 2 - p_w / 2) in
      if str_in "n" inv_dir then
        let spacing_y := if Qneq_bool n_y n_g_y then n_g_h - n_h else 0 in
        (x, y + (- min_spacing - spacing_y - p_h))
      else if str_in "s" inv_dir then
        let spacing_y := if Qeq_bool n_y 0 then n_g_h - n_h else 0 in
        (x, y + (n_h + min_spacing + spacing_y))
      else (x, y)
    else if str_in "e" inv_dir then
      (x + (n_w + spacing_x + min_spacing), y + (n_h / 2 - p_h / 2))
    else if str_in "w" inv_dir then
      (x + (- min_spacing - spacing_x - p_w), y + (n_h / 2 - p_h / 2))
    else (x, y)
  else
    let x := p_x in
    let y := p_y in
    if str_in "n" direction || str_in "s" direction then
      let x :=
        if str_in "e" direction then x + (p_w + min_spacing)
        else if str_in "w" direction then x + (- min_spacing - n_w)
        else x + (p_w / 2 - n_w / 2) in
      if str_in "n" direction then (x, n_y - min_spacing - spacing_y - p_h)
      else if str_in "s" direction then (x, y + (p_h + min_spacing))
      else (x, y)
    else
      if str_in "e" direction then
        (x + (p_w + min_spacing), y + (p_h / 2 - n_h / 2))
      else if str_in "w" direction then
        (x + (- min_spacing - n_w), y + (p_h / 2 - n_h / 2))
      else (x, y).

(** The components of a direction, by cases on the direction. *)
Definition goes_east (d : Direction) : bool :=
  match d with d_e | d_ne | d_se => true | _ => false end.
Definition goes_west (d : Direction) : bool :=
  match d with d_w | d_nw | d_sw => true | _ => false end.
Definition goes_north (d : Direction) : bool :=
  match d with d_n | d_ne | d_nw => true | _ => false end.
Definition goes_south (d : Direction) : bool :=
  match d with d_s | d_se | d_sw => true | _ => false end.

(** The offsets of the [parent_to_node] branch along [inv], for given
    inflation terms [sx] and [sy]. *)
Definition ptn_dx (P N : BoundingRect) (inv : Direction) (sx min_spacing : Q) : Q :=
  if goes_east inv then br_w N + sx + min_spacing
  else if goes_west inv then - min_spacing - sx - br_w P
  else br_w N / 2 - br_w P / 2.

Definition ptn_dy (P N : BoundingRect) (inv : Direction) (sy min_spacing : Q) : Q :=
  if goes_north inv then - min_spacing - sy - br_h P
  else if goes_south inv then br_h N + min_spacing + sy
  else br_h N / 2 - br_h P / 2.

Definition pt_eq (a b : Q * Q) : Prop := fst a == fst b /\ snd a == snd b.


(* ================================================================== *)
(** * Exceptions *)
(* ================================================================== *)

(** [RecursionError] is what Python raises when the call stack is
    exhausted; the recursive functions below take the remaining stack depth
    as their first argument. *)
Inductive exn : Type :=
| ValueError (msg : string)
| KeyError (key : string)
| RecursionError.

Inductive result (A : Type) : Type :=
| Ok (a : A)
| Raise (err : exn).
Arguments Ok {A} a.
Arguments Raise {A} err.

Definition bind {A B : Type} (c : result A) (k : A -> result B) : result B :=
  match c with
  | Ok a => k a
  | Raise err => Raise err
  end.

Notation "x <- c ;; k" := (bind c (fun x => k))
  (at level 61, c at next level, right associativity).
Notation "' pat <- c ;; k" := (bind c (fun x => match x with pat => k end))
  (at level 61, pat pattern, c at next level, right associativity).

(* ================================================================== *)
(** * Nodes and the node store *)
(* ================================================================== *)

Definition Idx : Type := string.
Bind Scope string_scope with Idx.

(** [x in xs] for a list of node objects. *)
Definition mem (x : Idx) (xs : list Idx) : bool := existsb (String.eqb x) xs.

(** A [DiagramNode].  [shape], [widget] and [group] are handles of scene
    items; the scene addresses them by the node's [idx]. *)
Record DiagramNode : Type := mkNode {
  idx : Idx;
  connections : list (Direction * list Idx);
  parent : option Idx;
  positioned : bool
}.

Definition store : Type := list (Idx * DiagramNode).

Fixpoint find_node (st : store) (i : Idx) : option DiagramNode :=
  match st with
  | [] => None
  | (k, nd) :: rest => if String.eqb k i then Some nd else find_node rest i
  end.

Fixpoint update_node (st : store) (i : Idx) (f : DiagramNode -> DiagramNode) : store :=
  match st with
  | [] => []
  | (k, nd) :: rest =>
      if String.eqb k i then (k, f nd) :: rest else (k, nd) :: update_node rest i f
  end.

(** The [connections] of the object [i]; an id that names no object of the
    store has none (stores made by [build_tree] contain every id they
    mention, see [link_closed]). *)
Definition connections_of (st : store) (i : Idx) : list (Direction * list Idx) :=
  match find_node st i with
  | Some nd => connections nd
  | None => []
  end.

Definition positioned_of (st : store) (i : Idx) : bool :=
  match find_node st i with
  | Some nd => positioned nd
  | None => false
  end.

Definition parent_of (st : store) (i : Idx) : option Idx :=
  match find_node st i with
  | Some nd => parent nd
  | None => None
  end.

Definition set_positioned (st : store) (i : Idx) : store :=
  update_node st i (fun nd => mkNode (idx nd) (connections nd) (parent nd) true).

Definition set_parent (st : store) (i p : Idx) : store :=
  update_node st i (fun nd => mkNode (idx nd) (connections nd) (Some p) (positioned nd)).

(** [d[direction].append(child)] on a [defaultdict(list)]. *)
Fixpoint dict_append (d : list (Direction * list Idx)) (direction : Direction)
    (child : Idx) : list (Direction * list Idx) :=
  match d with
  | [] => [(direction, [child])]
  | (k, nodes) :: rest =>
      if Direction_eqb k direction then (k, nodes ++ [child]) :: rest
      else (k, nodes) :: dict_append rest direction child
  end.

Definition add_connection (st : store) (i : Idx) (direction : Direction)
    (child : Idx) : store :=
  update_node st i (fun nd =>
    mkNode (idx nd) (dict_append (connections nd) direction child) (parent nd)
           (positioned nd)).

(** [DiagramNode.get_direction_to_child] *)
Fixpoint direction_to_child (conns : list (Direction * list Idx)) (node : Idx)
    : result Direction :=
  match conns with
  | [] => Raise (ValueError "not connected")
  | (direction, nodes) :: rest =>
      if mem node nodes then Ok direction else direction_to_child rest node
  end.

Definition get_direction_to_child (st : store) (self node : Idx) : result Direction :=
  direction_to_child (connections_of st self) node.

(** [DiagramNode.get_nodes] *)
Definition get_nodes (st : store) (self : Idx) : list Idx :=
  flat_map snd (connections_of st self).

(** The loop of [walk_depth_first] over the children; [rec] is the recursive
    call [node.walk_depth_first(visited)].  The result is the sequence of
    yielded nodes and the final content of [visited]. *)
Fixpoint walk_nodes (rec : Idx -> list Idx -> result (list Idx * list Idx))
    (nodes : list Idx) (visited : list Idx) : result (list Idx * list Idx) :=
  match nodes with
  | [] => Ok ([], visited)
  | node :: rest =>
      if mem node visited then walk_nodes rec rest visited
      else
        '(out1, visited1) <- rec node (visited ++ [node]) ;;
        '(out2, visited2) <- walk_nodes rec rest visited1 ;;
        Ok (out1 ++ out2, visited2)
  end.

(** [DiagramNode.walk_depth_first] with an explicit [visited] list. *)
Fixpoint walk (depth : nat) (st : store) (self : Idx) (visited : list Idx)
    : result (list Idx * list Idx) :=
  match depth with
  | O => Raise RecursionError
  | S depth' =>
      '(out, visited1) <- walk_nodes (walk depth' st) (get_nodes st self) visited ;;
      Ok (out ++ [self], visited1 ++ [self])
  end.

(** [self.walk_depth_first()]: [visited] is [None], so a new list is used;
    the generator is run to its end. *)
Definition walk_depth_first (depth : nat) (st : store) (self : Idx)
    : result (list Idx) :=
  '(out, _) <- walk depth st self [] ;; Ok out.

(** What never changes once the tree is built: the ids and their
    [connections]. *)
Definition skeleton (st : store) : list (Idx * list (Direction * list Idx)) :=
  map (fun '(k, nd) => (k, connections nd)) st.

(** [m] is reachable from [p] along [connections]. *)
Inductive reachable (st : store) : Idx -> Idx -> Prop :=
| reach_refl (p : Idx) : reachable st p p
| reach_step (p c m : Idx) :
    In c (get_nodes st p) -> reachable st c m -> reachable st p m.

(** What a call with a given [visited] yields, on any graph: the final
    [visited] holds what it held before and the yielded nodes, and the node
    the call was made on is yielded. *)
Definition walk_post (self : Idx) (V : list Idx) (res : list Idx * list Idx) : Prop :=
  (forall m, In m (snd res) <-> In m V \/ In m (fst res)) /\ In self (fst res).

(** The result of [self.walk_depth_first(visited)] with [visited = V] on an
    acyclic graph ranked by [rank]: new nodes [out], each once, all below
    [self], then [self]. *)
Definition dag_post (st : store) (rank : Idx -> nat) (self : Idx) (V : list Idx)
    (res : list Idx * list Idx) : Prop :=
  exists out,
    fst res = out ++ [self] /\
    NoDup out /\
    (forall m, In m out ->
       ~ In m V /\ (rank m < rank self)%nat /\ reachable st self m) /\
    (forall m, In m (snd res) <-> In m V \/ In m out \/ m = self) /\
    (forall m, In m out \/ m = self ->
       forall c, In c (get_nodes st m) -> In c (snd res)).

(* ================================================================== *)
(** * Tree builder *)
(* ================================================================== *)

Fixpoint dict_get {V : Type} (d : list (Idx * V)) (k : Idx) : option V :=
  match d with
  | [] => None
  | (k', v) :: rest => if String.eqb k' k then Some v else dict_get rest k
  end.

(** The inner loop of [build_tree] for one node. *)
Fixpoint link_node (st : store) (node : Idx) (conns : list (Direction * Idx))
    : result store :=
  match conns with
  | [] => Ok st
  | (direction, i) :: rest =>
      match find_node st i with
      | None => Raise (KeyError i)
      | Some _ =>
          link_node (set_parent (add_connection st node direction i) i node) node rest
      end
  end.

(** [connections.get(idx, {})] *)
Definition conns_of (connections : list (Idx * list (Direction * Idx))) (p : Idx)
    : list (Direction * Idx) :=
  match dict_get connections p with Some c => c | None => [] end.

(** The outer loop of [build_tree], over [nodes.values()]. *)
Fixpoint link_nodes (st : store) (ids : list Idx)
    (connections : list (Idx * list (Direction * Idx))) : result store :=
  match ids with
  | [] => Ok st
  | i :: rest =>
      st1 <- link_node st i (conns_of connections i) ;;
      link_nodes st1 rest connections
  end.

Definition new_nodes {Shape : Type} (shapes : list (Idx * Shape)) : store :=
  map (fun '(i, _) => (i, mkNode i [] None false)) shapes.

(** [[node for node in nodes.values() if node.parent is None]] *)
Definition roots (st : store) : list Idx :=
  map fst (filter (fun '(_, nd) =>
                     match parent nd with None => true | Some _ => false end) st).

(** [build_tree]; the result is the root together with the node objects. *)
Definition build_tree {Shape : Type} (shapes : list (Idx * Shape))
    (connections : list (Idx * list (Direction * Idx))) : result (store * Idx) :=
  let nodes := new_nodes shapes in
  nodes <- link_nodes nodes (map fst nodes) connections ;;
  match roots nodes with
  | [root] => Ok (nodes, root)
  | _ => Raise (ValueError "Not only one root?")
  end.



(** Every child id of a triple of a declared id is declared. *)
Definition children_declared {Shape : Type} (shapes : list (Idx * Shape))
    (connections : list (Idx * list (Direction * Idx))) : Prop :=
  forall p conns d c, In p (map fst shapes) -> dict_get connections p = Some conns ->
    In (d, c) conns -> In c (map fst shapes).

(** The triples (parent id, direction, child id) that [build_tree] applies,
    in the order it applies them. *)
Definition triples (ids : list Idx) (connections : list (Idx * list (Direction * Idx)))
    : list (Idx * Direction * Idx) :=
  flat_map (fun p => map (fun '(d, c) => (p, d, c)) (conns_of connections p)) ids.


(* ================================================================== *)
(** * The canvas interface *)
(* ================================================================== *)

(** [QtCore.QLineF(x1, y1, x2, y2)] *)
Record QLineF : Type := mkLine { l_x1 : Q; l_y1 : Q; l_x2 : Q; l_y2 : Q }.

(** What the layout and the connector renderer ask of the scene.  Scene
    items are addressed by the node that owns them: [cv_addToGroup sc a b]
    is [a.group.addToGroup(b.shape)].  [scene.update()] only requests a
    redraw and is left out. *)
Class Canvas (Sc : Type) : Type := {
  cv_bounding_rect : Sc -> Idx -> BoundingRect;   (* node.get_bounding_rect() *)
  cv_group_in_scene : Sc -> Idx -> bool;          (* node.group in scene.items() *)
  cv_addItem : Sc -> Idx -> Sc;                   (* scene.addItem(node.group) *)
  cv_addToGroup : Sc -> Idx -> Idx -> Sc;
  cv_setPos : Sc -> Idx -> Q -> Q -> Sc;          (* node.group.setPos(x, y) *)
  cv_addLine : Sc -> QLineF -> Sc                 (* scene.addLine(line, pen) *)
}.

(* ================================================================== *)
(** * Layout engine *)
(* ================================================================== *)

(** [d[k] = v] on a dictionary. *)
Fixpoint dict_set (d : list (Direction * Idx)) (k : Direction) (v : Idx)
    : list (Direction * Idx) :=
  match d with
  | [] => [(k, v)]
  | (k', v') :: rest =>
      if Direction_eqb k' k then (k', v) :: rest else (k', v') :: dict_set rest k v
  end.

Section Layout.
Context {Sc : Type} `{Canvas Sc}.

(** The objects a call of [layout] works on: the nodes, the scene and the
    list bound to [visited].  [layout] mutates the three of them. *)
Record LState : Type := mkL {
  nodes : store;
  scene : Sc;
  visited : list Idx
}.

Definition add_visited (st : LState) (i : Idx) : LState :=
  mkL (nodes st) (scene st) (visited st ++ [i]).

(** The first loop of [layout]: over the nodes yielded by
    [parent.walk_depth_first()]; [rec] is the recursive call of [layout].
    The walk only reads [connections], which [layout] never changes, so
    the generator may be run before the loop. *)
Fixpoint layout_scan (rec : Idx -> LState -> result LState) (depth : nat)
    (parent : Idx) (yielded : list Idx) (conns : list (Direction * Idx))
    (st : LState) : result (list (Direction * Idx) * LState) :=
  match yielded with
  | [] => Ok (conns, st)
  | node :: rest =>
      match get_direction_to_child (nodes st) parent node with
      | Raise (ValueError _) => layout_scan rec depth parent rest conns st
      | Raise err => Raise err
      | Ok dir =>
          child <- walk_depth_first depth (nodes st) node ;;
          st1 <- (if (1 <? List.length child)%nat then rec node st else Ok st) ;;
          layout_scan rec depth parent rest (dict_set conns dir node) st1
      end
  end.

(** [for item in node.get_nodes(): parent.group.addToGroup(item.shape)] *)
Definition merge_nodes (sc : Sc) (parent : Idx) (items : list Idx) : Sc :=
  fold_left (fun sc item => cv_addToGroup sc parent item) items sc.

(** The body of the second loop of [layout]. *)
Definition layout_place (min_spacing : Q) (parent : Idx) (st : LState)
    (dir : Direction) (node : Idx) : LState :=
  let st1 :=
    if positioned_of (nodes st) parent then
      let '(x, y) := calculate_position (cv_bounding_rect (scene st) parent)
                       (cv_bounding_rect (scene st) node) dir min_spacing false in
      let sc := if negb (cv_group_in_scene (scene st) node)
                then cv_addToGroup (cv_addItem (scene st) node) node node
                else scene st in
      mkL (nodes st) (cv_setPos sc node x y) (visited st)
    else
      let '(x, y) := calculate_position (cv_bounding_rect (scene st) parent)
                       (cv_bounding_rect (scene st) node) dir min_spacing true in
      let sc := if negb (cv_group_in_scene (scene st) parent)
                then cv_addToGroup (cv_addItem (scene st) parent) parent parent
                else scene st in
      mkL (set_positioned (nodes st) parent) (cv_setPos sc parent x y) (visited st) in
  let sc := merge_nodes (scene st1) parent (get_nodes (nodes st1) node) in
  let sc := merge_nodes sc parent (get_nodes (nodes st1) node) in
  mkL (nodes st1) (cv_addToGroup sc parent node) (visited st1).

(** The second loop of [layout], over [connections.items()]. *)
Definition layout_place_all (min_spacing : Q) (parent : Idx)
    (conns : list (Direction * Idx)) (st : LState) : LState :=
  fold_left (fun st '(dir, node) => layout_place min_spacing parent st dir node)
            conns st.

(** [layout(scene, root, parent, min_spacing, visited)] *)
Fixpoint layout (depth : nat) (min_spacing : Q) (root parent : Idx)
    (st : LState) : result LState :=
  match depth with
  | O => Raise RecursionError
  | S depth' =>
      if mem parent (visited st) then Ok st
      else
        let st := add_visited st parent in
        yielded <- walk_depth_first depth' (nodes st) parent ;;
        '(conns, st1) <- layout_scan (layout depth' min_spacing root) depth'
                           parent yielded [] st ;;
        Ok (layout_place_all min_spacing parent conns st1)
  end.

(** [layout(scene, root, parent)] as [layout_instantiated_map] calls it:
    [min_spacing] is 30 and [visited] is the list that was created when the
    [def] statement was executed and that every call without the argument
    shares; [default_visited] is the content of that list. *)
Definition layout_default (depth : nat) (root parent : Idx)
    (default_visited : list Idx) (nds : store) (sc : Sc) : result LState :=
  layout depth 30 root parent (mkL nds sc default_visited).

(* ---------------------------------------------------------------- *)
(** ** Connector renderer *)

(** The dictionary [offsets] of [connect_widgets] and its lookup. *)
Definition offsets (p_w p_h n_w n_h : Q) (direction : Direction) : Q * Q * Q * Q :=
  match direction with
  | d_n => (p_w / 2, 0, n_w / 2, n_h)
  | d_s => (p_w / 2, p_h, n_w / 2, 0)
  | d_e => (p_w, p_h / 2, 0, n_h / 2)
  | d_w => (0, p_h / 2, n_w, n_h / 2)
  | d_nw => (0, 0, n_w, n_h)
  | d_ne => (p_w, 0, 0, n_h)
  | d_sw => (0, p_h, n_w, 0)
  | d_se => (p_w, p_h, 0, 0)
  end.

(** The line drawn for one entry of [connections].  The widget sizes and the
    scene position of the shapes are the first four numbers of
    [get_bounding_rect]. *)
Definition connector_line (sc : Sc) (parent : Idx) (direction : Direction)
    (node : Idx) : QLineF :=
  let P := cv_bounding_rect sc parent in
  let N := cv_bounding_rect sc node in
  let p_w := br_w P in let p_h := br_h P in
  let n_w := br_w N in let n_h := br_h N in
  let '(o0, o1, o2, o3) := offsets p_w p_h n_w n_h direction in
  mkLine (br_x P + o0) (br_y P + o1) (br_x N + o2) (br_y N + o3).

Definition CState : Type := (Sc * list Idx)%type.

Fixpoint connect_scan (rec : Idx -> CState -> result CState) (depth : nat)
    (nds : store) (parent : Idx) (yielded : list Idx)
    (conns : list (Direction * Idx)) (st : CState)
    : result (list (Direction * Idx) * CState) :=
  match yielded with
  | [] => Ok (conns, st)
  | node :: rest =>
      match get_direction_to_child nds parent node with
      | Raise (ValueError _) => connect_scan rec depth nds parent rest conns st
      | Raise err => Raise err
      | Ok dir =>
          child <- walk_depth_first depth nds node ;;
          st1 <- (if (1 <? List.length child)%nat then rec node st else Ok st) ;;
          connect_scan rec depth nds parent rest (dict_set conns dir node) st1
      end
  end.

(** [connect_widgets(scene, parent, visited)]; the state is the scene and
    the list bound to [visited]. *)
Fixpoint connect_widgets (depth : nat) (nds : store) (parent : Idx)
    (st : CState) : result CState :=
  match depth with
  | O => Raise RecursionError
  | S depth' =>
      let '(sc, vis) := st in
      if mem parent vis then Ok st
      else
        let st := (sc, vis ++ [parent]) in
        yielded <- walk_depth_first depth' nds parent ;;
        '(conns, (sc1, vis1)) <- connect_scan (connect_widgets depth' nds) depth'
                                   nds parent yielded [] st ;;
        Ok (fold_left (fun sc '(direction, node) =>
                         cv_addLine sc (connector_line sc parent direction node))
                      conns sc1, vis1)
  end.

End Layout.

Arguments LState Sc : clear implicits.
Arguments CState Sc : clear implicits.

(* ================================================================== *)
(** * Rectangles and the group composite *)
(* ================================================================== *)

(** [QRectF]: left, top, width, height. *)
Record Rect : Type := mkRect { r_x : Q; r_y : Q; r_w : Q; r_h : Q }.

Definition r_right (r : Rect) : Q := r_x r + r_w r.
Definition r_bottom (r : Rect) : Q := r_y r + r_h r.

(** The bounding rectangle of two rectangles ([QRectF.united]). *)
Definition united (a b : Rect) : Rect :=
  let x_min := Qmin (r_x a) (r_x b) in
  let y_min := Qmin (r_y a) (r_y b) in
  mkRect x_min y_min
         (Qmax (r_right a) (r_right b) - x_min)
         (Qmax (r_bottom a) (r_bottom b) - y_min).

(** [QGraphicsItem.childrenBoundingRect]: the bounding rectangle of the
    children, the null rectangle for an item without children. *)
Definition childrenBoundingRect (children : list Rect) : Rect :=
  match children with
  | [] => mkRect 0 0 0 0
  | c :: cs => fold_left united cs c
  end.

(** [QRectF.marginsAdded(QMarginsF(left, top, right, bottom))] *)
Definition marginsAdded (r : Rect) (m : Q * Q * Q * Q) : Rect :=
  let '(m_left, m_top, m_right, m_bottom) := m in
  mkRect (r_x r - m_left) (r_y r - m_top)
         (r_w r + m_left + m_right) (r_h r + m_top + m_bottom).

Definition _default_margins : Q * Q * Q * Q := (5, 5, 5, 5).

(** A proxy widget as [_GroupWrapper.__init__] meets it: its scene position
    and the size of its bounding rectangle. *)
Record Proxy : Type := mkProxy { pr_x : Q; pr_y : Q; pr_w : Q; pr_h : Q }.

(** One turn of the loop over [self._proxies]: the proxy becomes a child of
    the wrapper (which sits at the origin of the scene) at its former scene
    position.  The state is the list of the wrapper's children, each with
    its rectangle in the wrapper's coordinates. *)
Definition adopt (children : list Rect) (proxy : Proxy) : list Rect :=
  let pos_x := pr_x proxy in
  let pos_y := pr_y proxy in
  children ++ [mkRect pos_x pos_y (pr_w proxy) (pr_h proxy)].

(** The rectangle [_GroupWrapper.__init__] passes to [setRect], for the
    proxies of [self._proxies] in the order of that dictionary. *)
Definition GroupWrapper_rect (proxies : list (string * Proxy)) : Rect :=
  let children := fold_left (fun ch '(_, proxy) => adopt ch proxy) proxies [] in
  let margins := _default_margins in
  marginsAdded (childrenBoundingRect children) margins.

Definition rect_eq (a b : Rect) : Prop :=
  r_x a == r_x b /\ r_y a == r_y b /\ r_w a == r_w b /\ r_h a == r_h b.

(** [outer] contains [inner]. *)
Definition rect_contains (outer inner : Rect) : Prop :=
  r_x outer <= r_x inner /\ r_y outer <= r_y inner /\
  r_right inner <= r_right outer /\ r_bottom inner <= r_bottom outer.

(** [u] is the union (the least rectangle that contains each) of [boxes]. *)
Definition is_union (u : Rect) (boxes : list Rect) : Prop :=
  (forall b, In b boxes -> rect_contains u b) /\
  (forall r, (forall b, In b boxes -> rect_contains r b) -> rect_contains r u).

Definition proxy_box (p : string * Proxy) : Rect :=
  mkRect (pr_x (snd p)) (pr_y (snd p)) (pr_w (snd p)) (pr_h (snd p)).

(* ================================================================== *)
(** * A scene of proxy widgets *)
(* ================================================================== *)

(** The scene items of one node whose shape is a proxy widget: the proxy
    (scene position, widget size, the group it currently belongs to) and the
    node's own [QGraphicsItemGroup] (position, bounding rectangle in its own
    coordinates, [None] as long as nothing was added, and whether it is an
    item of the scene).  Groups are top-level items, so their position is a
    scene position. *)
Record QtItems : Type := mkItems {
  shape_pos : Q * Q;
  widget_size : Q * Q;
  shape_group : option Idx;
  group_pos : Q * Q;
  group_rect : option Rect;
  group_in_scene : bool
}.

(** The scene: the items of each node, the lines added by [addLine], and the
    record of the [setPos] calls in the order they were made. *)
Record QtScene : Type := mkScene {
  items : list (Idx * QtItems);
  lines : list QLineF;
  setPos_calls : list (Idx * (Q * Q))
}.

Fixpoint qt_find (l : list (Idx * QtItems)) (i : Idx) : option QtItems :=
  match l with
  | [] => None
  | (k, it) :: rest => if String.eqb k i then Some it else qt_find rest i
  end.

Fixpoint qt_update (l : list (Idx * QtItems)) (i : Idx) (f : QtItems -> QtItems)
    : list (Idx * QtItems) :=
  match l with
  | [] => []
  | (k, it) :: rest =>
      if String.eqb k i then (k, f it) :: rest else (k, it) :: qt_update rest i f
  end.

(** [group.sceneBoundingRect()] *)
Definition group_scene_rect (it : QtItems) : Rect :=
  match group_rect it with
  | Some r => mkRect (fst (group_pos it) + r_x r) (snd (group_pos it) + r_y r) (r_w r) (r_h r)
  | None => mkRect (fst (group_pos it)) (snd (group_pos it)) 0 0
  end.

Definition qt_bounding_rect (sc : QtScene) (i : Idx) : BoundingRect :=
  match qt_find (items sc) i with
  | Some it =>
      let g := group_scene_rect it in
      mkBR (fst (shape_pos it)) (snd (shape_pos it))
           (fst (widget_size it)) (snd (widget_size it))
           (r_x g) (r_y g) (r_w g) (r_h g)
  | None => mkBR 0 0 0 0 0 0 0 0
  end.

Definition qt_group_in_scene (sc : QtScene) (i : Idx) : bool :=
  match qt_find (items sc) i with
  | Some it => group_in_scene it
  | None => false
  end.

Definition qt_addItem (sc : QtScene) (i : Idx) : QtScene :=
  mkScene (qt_update (items sc) i (fun it =>
             mkItems (shape_pos it) (widget_size it) (shape_group it)
                     (group_pos it) (group_rect it) true))
          (lines sc) (setPos_calls sc).

(** [QGraphicsItemGroup.addToGroup]: the item becomes a child of the group,
    its position in the scene stays, and the group's bounding rectangle is
    united with the item's rectangle (in the group's coordinates). *)
Definition qt_addToGroup (sc : QtScene) (owner item : Idx) : QtScene :=
  match qt_find (items sc) owner, qt_find (items sc) item with
  | Some o, Some it =>
      let local := mkRect (fst (shape_pos it) - fst (group_pos o))
                          (snd (shape_pos it) - snd (group_pos o))
                          (fst (widget_size it)) (snd (widget_size it)) in
      let l1 := qt_update (items sc) item (fun it =>
                  mkItems (shape_pos it) (widget_size it) (Some owner)
                          (group_pos it) (group_rect it) (group_in_scene it)) in
      let l2 := qt_update l1 owner (fun o =>
                  mkItems (shape_pos o) (widget_size o) (shape_group o) (group_pos o)
                          (match group_rect o with
                           | Some r => Some (united r local)
                           | None => Some local
                           end)
                          (group_in_scene o)) in
      mkScene l2 (lines sc) (setPos_calls sc)
  | _, _ => sc
  end.

(** [group.setPos(x, y)]: the group moves and its members move with it. *)
Definition qt_setPos (sc : QtScene) (i : Idx) (x y : Q) : QtScene :=
  match qt_find (items sc) i with
  | Some g =>
      let dx := x - fst (group_pos g) in
      let dy := y - snd (group_pos g) in
      let moved := map (fun '(k, it) =>
                     match shape_group it with
                     | Some o =>
                         if String.eqb o i
                         then (k, mkItems (fst (shape_pos it) + dx, snd (shape_pos it) + dy)
                                          (widget_size it) (shape_group it) (group_pos it)
                                          (group_rect it) (group_in_scene it))
                         else (k, it)
                     | None => (k, it)
                     end) (items sc) in
      mkScene (qt_update moved i (fun g =>
                 mkItems (shape_pos g) (widget_size g) (shape_group g) (x, y)
                         (group_rect g) (group_in_scene g)))
              (lines sc) (setPos_calls sc ++ [(i, (x, y))])
  | None => sc
  end.

Definition qt_addLine (sc : QtScene) (l : QLineF) : QtScene :=
  mkScene (items sc) (lines sc ++ [l]) (setPos_calls sc).

#[export] Instance QtScene_Canvas : Canvas QtScene := {
  cv_bounding_rect := qt_bounding_rect;
  cv_group_in_scene := qt_group_in_scene;
  cv_addItem := qt_addItem;
  cv_addToGroup := qt_addToGroup;
  cv_setPos := qt_setPos;
  cv_addLine := qt_addLine
}.

(** The scene after [scene.addWidget(widget)] for each widget: every proxy at
    the origin, every group new and empty. *)
Definition new_scene (widgets : list (Idx * (Q * Q))) : QtScene :=
  mkScene (map (fun '(i, size) => (i, mkItems (0, 0) size None (0, 0) None false)) widgets)
          [] [].

(** Reduced forms, to compare computed coordinates. *)
Definition red_pt (p : Q * Q) : Q * Q := (Qred (fst p), Qred (snd p)).

Definition shape_pos_of (sc : QtScene) (i : Idx) : Q * Q :=
  red_pt (br_x (qt_bounding_rect sc i), br_y (qt_bounding_rect sc i)).

Definition red_calls (sc : QtScene) : list (Idx * (Q * Q)) :=
  map (fun '(i, p) => (i, red_pt p)) (setPos_calls sc).

(* ================================================================== *)
(** * The scenario of the specification: A -e-> B -s-> C *)
(* ================================================================== *)

Definition abc_shapes : list (Idx * (Q * Q)) :=
  [("A", (40, 20)); ("B", (30, 10)); ("C", (20, 20))]%string.

Definition abc_connections : list (Idx * list (Direction * Idx)) :=
  [("A", [(d_e, "B")]); ("B", [(d_s, "C")])]%string.

Definition abc_tree : store :=
  match build_tree abc_shapes abc_connections with
  | Ok (nds, _) => nds
  | Raise _ => []
  end.

(** The first top-level call [layout(scene, root, root)] of the process:
    the default list is still empty. *)
Definition abc_layout : result (LState QtScene) :=
  layout_default 10 "A" "A" [] abc_tree (new_scene abc_shapes).






(* ================================================================== *)
(** * Invariants of the layout traversal *)
(* ================================================================== *)

(** The invariant of a running layout over the graph [G], for the calls
    [Stack] that have started and not returned: every node of [visited] that
    has children and whose call has returned is positioned, and its children
    that have children are in [visited] as well. *)
Definition layout_inv {Sc : Type} (G : store) (Stack : list Idx) (st : LState Sc)
    : Prop :=
  forall v, In v (visited st) -> ~ In v Stack -> get_nodes G v <> [] ->
    positioned_of (nodes st) v = true /\
    (forall c, In c (get_nodes G v) -> get_nodes G c <> [] -> In c (visited st)).

(** What a part of the layout of the graph [G] does to the state. *)
Definition layout_step {Sc : Type} (G : store) (st st' : LState Sc) : Prop :=
  skeleton (nodes st') = skeleton G /\
  incl (visited st) (visited st') /\
  (forall i, positioned_of (nodes st) i = true -> positioned_of (nodes st') i = true) /\
  (forall i, get_nodes G i = [] ->
     positioned_of (nodes st') i = positioned_of (nodes st) i) /\
  (forall Stack, layout_inv G Stack st -> layout_inv G Stack st').

(** Every id that is a child of some node of the store. *)
Definition all_children (G : store) : list Idx :=
  flat_map (fun e => flat_map snd (connections (snd e))) G.

(** The ids of [U] that are not in [V] yet: what a guarded traversal can
    still enter. *)
Definition fresh (U V : list Idx) : list Idx :=
  filter (fun c => negb (mem c V)) U.

(** Whether a result is the not-connected signal of
    [get_direction_to_child] (a [ValueError]). *)
Definition is_ValueError {A : Type} (r : result A) : bool :=
  match r with
  | Raise (ValueError _) => true
  | _ => false
  end.

(** An acyclic graph with sharing: [b] is listed under two directions of
    [a], and [d] is reachable through [b] and through [c]. *)
Definition diamond : store :=
  [("a", mkNode "a" [(d_e, ["b"]); (d_s, ["c"]); (d_w, ["b"])] None false);
   ("b", mkNode "b" [(d_e, ["d"])] (Some "a") false);
   ("c", mkNode "c" [(d_e, ["d"])] (Some "a") false);
   ("d", mkNode "d" [] (Some "c") false)]%string.

Definition diamond_rank (i : Idx) : nat :=
  if String.eqb i "a" then 2
  else if String.eqb i "b" then 1
  else if String.eqb i "c" then 1
  else 0.

(* ================================================================== *)
(** * Boxes and clearance *)
(* ================================================================== *)

(** The box of a shape where it is, and where it will be once its group is
    moved to [p]. *)
Definition shape_box (B : BoundingRect) : Rect :=
  mkRect (br_x B) (br_y B) (br_w B) (br_h B).

Definition box_at (B : BoundingRect) (p : Q * Q) : Rect :=
  mkRect (fst p) (snd p) (br_w B) (br_h B).

(** The boxes [a] and [b] are at least [ms] apart along one of the axes. *)
Definition clear_by (ms : Q) (a b : Rect) : Prop :=
  ms <= r_x b - r_right a \/ ms <= r_x a - r_right b \/
  ms <= r_y b - r_bottom a \/ ms <= r_y a - r_bottom b.



(** The inflation terms of the [parent_to_node] branch. *)
Definition inflate_x (N : BoundingRect) (inv : Direction) : Q :=
  if goes_east inv then (if Qeq_bool (br_x N) 0 then br_g_w N - br_w N else 0)
  else if goes_west inv then (if Qneq_bool (br_x N) 0 then br_g_w N - br_w N else 0)
  else 0.

Definition inflate_y (N : BoundingRect) (inv : Direction) : Q :=
  if goes_north inv
  then (if Qneq_bool (br_y N) (br_g_y N) then br_g_h N - br_h N else 0)
  else if goes_south inv then (if Qeq_bool (br_y N) 0 then br_g_h N - br_h N else 0)
  else 0.


(** What [walk] yields is reachable from the roots of the walk, and the
    children of what it yields end up in [visited]. *)
Definition walk_reach (st : store) (roots : list Idx)
    (res : list Idx * list Idx) : Prop :=
  (forall m, In m (fst res) -> exists c, In c roots /\ reachable st c m) /\
  (forall m, In m (fst res) ->
     forall c, In c (get_nodes st m) -> In c (snd res)).

(** A graph with a cycle below its root: a -e-> b -e-> c -w-> b. *)
Definition cyclic : store :=
  [("a", mkNode "a" [(d_e, ["b"])] None false);
   ("b", mkNode "b" [(d_e, ["c"])] (Some "c") false);
   ("c", mkNode "c" [(d_w, ["b"])] (Some "b") false)]%string.

(** The parent that the triples [ts], applied in order, leave in the node
    [i] that had the parent [start]: the parent id of the last triple that
    names [i] as its child. *)
Definition last_parent (ts : list (Idx * Direction * Idx)) (i : Idx)
    (start : option Idx) : option Idx :=
  fold_left (fun acc '(p, _, c) => if String.eqb c i then Some p else acc) ts start.

(** [connections] after [d[direction].append(child)] for each pair. *)
Definition append_all (conns : list (Direction * Idx))
    (acc : list (Direction * list Idx)) : list (Direction * list Idx) :=
  fold_left (fun acc '(d, c) => dict_append acc d c) conns acc.

(** What [build_tree] put in the nodes: ids, connections and parents, all
    but the [positioned] flags. *)
Definition node_links (st : store)
    : list (Idx * (Idx * list (Direction * list Idx) * option Idx)) :=
  map (fun '(k, nd) => (k, (idx nd, connections nd, parent nd))) st.

(* ================================================================== *)
(** * Group disassembler and validator *)
(* ================================================================== *)

(** The loops of [remove_groups] over the children; [rec] is the recursive
    call.  The state is the scene and the list bound to [visited]. *)
Fixpoint remove_nodes {Sc : Type}
    (rec : Idx -> Sc * list Idx -> result (Sc * list Idx))
    (ns : list Idx) (s : Sc * list Idx) : result (Sc * list Idx) :=
  match ns with
  | [] => Ok s
  | node :: rest =>
      let '(sc, visited) := s in
      if mem node visited then remove_nodes rec rest s
      else
        s1 <- rec node (sc, visited ++ [node]) ;;
        remove_nodes rec rest s1
  end.

(** [remove_groups(scene, parent, visited)]; [destroyItemGroup sc i] is
    [scene.destroyItemGroup(i.group)]. *)
Fixpoint remove_groups {Sc : Type} (destroyItemGroup : Sc -> Idx -> Sc)
    (depth : nat) (st : store) (parent : Idx) (s : Sc * list Idx)
    : result (Sc * list Idx) :=
  match depth with
  | O => Raise RecursionError
  | S depth' =>
      '(sc, visited) <- remove_nodes (remove_groups destroyItemGroup depth' st)
                          (get_nodes st parent) s ;;
      Ok (destroyItemGroup sc parent, visited)
  end.

(** [validate(scene, shapes)]: [collidingItems shape] is
    [scene.collidingItems(shape)] and [is_line x] is
    [isinstance(x, QtWidgets.QGraphicsLineItem)]. *)
Fixpoint validate {Shape Item : Type} (collidingItems : Shape -> list Item)
    (is_line : Item -> bool) (shapes : list (Idx * Shape)) : bool :=
  match shapes with
  | [] => true
  | (_, shape) :: rest =>
      let collisions := filter (fun x => negb (is_line x)) (collidingItems shape) in
      if (0 <? List.length collisions)%nat then false
      else validate collidingItems is_line rest
  end.

(** The lists [V] and [W] hold the same nodes. *)
Definition same_nodes (V W : list Idx) : Prop := forall x, In x V <-> In x W.

(** How a call of [remove_groups] relates to the call of [walk] on the same
    node with a [visited] that holds the same nodes. *)
Definition remove_like_walk {Sc : Type} (destroy : Sc -> Idx -> Sc) (st : store)
    (depth : nat) : Prop :=
  forall parent sc V W, same_nodes V W ->
    match walk depth st parent V with
    | Ok (out, V') =>
        exists W', remove_groups destroy depth st parent (sc, W)
                   = Ok (fold_left destroy out sc, W') /\
                   same_nodes V' (W' ++ [parent]) /\ incl W W' /\
                   (forall c, In c (get_nodes st parent) -> In c W')
    | Raise err => remove_groups destroy depth st parent (sc, W) = Raise err
    end.


(* ================================================================== *)
(** * Properties of the position calculator *)
(* ================================================================== *)

(** C5.  In the mode [parent_to_node = False] the code centers the node on
    the parent horizontally for [n] and [s], and for [s] it places it at
    [p_y + p_h + min_spacing]; for [n] however it returns
    [n_y - min_spacing - p_h], computed from the node's own current position
    and the parent's height, not [p_y - min_spacing - n_h].  Parent at
    (0, 100) of size 40 x 10, node at (0, 0) of size 20 x 20, spacing 30:
    the code answers y = -40 where the claim asks for 50. *)
Theorem C5_north_ignores_parent_position :
  let P := mkBR 0 100 40 10 0 100 40 10 in
  let N := mkBR 0 0 20 20 0 0 0 0 in
  let north := calculate_position P N d_n 30 false in
  let south := calculate_position P N d_s 30 false in
  fst north == br_x P + br_w P / 2 - br_w N / 2 /\
  fst south == br_x P + br_w P / 2 - br_w N / 2 /\
  snd south == br_y P + br_h P + 30 /\
  snd north == -40 /\
  br_y P - 30 - br_h N == 50 /\
  ~ snd north == br_y P - 30 - br_h N.
Proof.
  cbv zeta. repeat split; try (vm_compute; reflexivity).
  vm_compute. discriminate.
Qed.

(** What [calculate_position] returns for [n] and [s] without
    [parent_to_node], for all boxes. *)
Lemma calculate_position_vertical (P N : BoundingRect) (ms : Q) :
  pt_eq (calculate_position P N d_s ms false)
        (br_x P + br_w P / 2 - br_w N / 2, br_y P + br_h P + ms) /\
  pt_eq (calculate_position P N d_n ms false)
        (br_x P + br_w P / 2 - br_w N / 2, br_y N - ms - br_h P).
Proof.
  unfold pt_eq; cbn. repeat split; field.
Qed.






(* ================================================================== *)
(** * Properties of the group composite *)
(* ================================================================== *)

Lemma united_right (a b : Rect) :
  r_right (united a b) == Qmax (r_right a) (r_right b).
Proof. cbv beta iota zeta delta [r_right united r_x r_w]. ring. Qed.

Lemma united_bottom (a b : Rect) :
  r_bottom (united a b) == Qmax (r_bottom a) (r_bottom b).
Proof. cbv beta iota zeta delta [r_bottom united r_y r_h]. ring. Qed.

Lemma contains_united (u a b : Rect) :
  rect_contains u (united a b) <-> rect_contains u a /\ rect_contains u b.
Proof.
  unfold rect_contains. rewrite united_right, united_bottom.
  cbn [united r_x r_y].
  rewrite !Q.min_glb_iff, !Q.max_lub_iff. tauto.
Qed.

Lemma contains_fold_united (cs : list Rect) : forall (c u : Rect),
  rect_contains u (fold_left united cs c)
  <-> rect_contains u c /\ (forall b, In b cs -> rect_contains u b).
Proof.
  induction cs as [ | a cs IH ]; intros c u; cbn [fold_left].
  - split; [ intros Hc; split; [ exact Hc | intros b [] ] | tauto ].
  - rewrite IH, contains_united. split.
    + intros [[Hc Ha] Hcs]. split; [ exact Hc | ].
      intros b [<- | Hb]; auto.
    + intros [Hc Hcs]. split; [ split | ]; auto using in_eq, in_cons.
Qed.

Lemma rect_contains_refl (u : Rect) : rect_contains u u.
Proof. unfold rect_contains. repeat split; apply Qle_refl. Qed.

Lemma childrenBoundingRect_is_union (boxes : list Rect) :
  boxes <> [] -> is_union (childrenBoundingRect boxes) boxes.
Proof.
  destruct boxes as [ | c cs ]; [ congruence | intros _ ].
  cbn [childrenBoundingRect]. split.
  - intros b Hb.
    destruct (proj1 (contains_fold_united cs c _) (rect_contains_refl _)) as [Hc Hcs].
    destruct Hb as [<- | Hb]; auto.
  - intros r Hr. apply contains_fold_united. split.
    + apply Hr, in_eq.
    + intros b Hb. apply Hr, in_cons, Hb.
Qed.

Lemma contains_antisym (u v : Rect) :
  rect_contains u v -> rect_contains v u -> rect_eq u v.
Proof.
  unfold rect_contains, rect_eq, r_right, r_bottom.
  intros (H1 & H2 & H3 & H4) (H5 & H6 & H7 & H8).
  repeat split; lra.
Qed.

Lemma is_union_unique (u v : Rect) (l l' : list Rect) :
  is_union u l -> is_union v l' -> (forall b, In b l <-> In b l') -> rect_eq u v.
Proof.
  intros [Hu1 Hu2] [Hv1 Hv2] Hl. apply contains_antisym.
  - apply Hv2. intros b Hb. apply Hu1, Hl, Hb.
  - apply Hu2. intros b Hb. apply Hv1, Hl, Hb.
Qed.

Lemma adopt_all (proxies : list (string * Proxy)) : forall acc,
  fold_left (fun ch '(_, proxy) => adopt ch proxy) proxies acc
  = acc ++ map proxy_box proxies.
Proof.
  induction proxies as [ | [name p] l IH ]; intros acc; cbn [fold_left map].
  - now rewrite app_nil_r.
  - rewrite IH. unfold adopt, proxy_box at 2. cbn [snd].
    now rewrite <- app_assoc.
Qed.

Lemma GroupWrapper_rect_eq (proxies : list (string * Proxy)) :
  GroupWrapper_rect proxies
  = marginsAdded (childrenBoundingRect (map proxy_box proxies)) (5, 5, 5, 5).
Proof. unfold GroupWrapper_rect. now rewrite adopt_all. Qed.

(** C9.  The rectangle fixed by [_GroupWrapper.__init__] does not depend on
    the order of the members, and for a group with members it is the union of
    the member boxes moved out by 5 on each of the four sides. *)
Theorem C9_group_rect_union_margin (proxies proxies' : list (string * Proxy)) :
  Permutation proxies proxies' ->
  rect_eq (GroupWrapper_rect proxies) (GroupWrapper_rect proxies') /\
  (proxies <> [] ->
   exists u : Rect,
     is_union u (map proxy_box proxies) /\
     r_x (GroupWrapper_rect proxies) == r_x u - 5 /\
     r_y (GroupWrapper_rect proxies) == r_y u - 5 /\
     r_right (GroupWrapper_rect proxies) == r_right u + 5 /\
     r_bottom (GroupWrapper_rect proxies) == r_bottom u + 5).
Proof.
  intros Hperm. rewrite !GroupWrapper_rect_eq. split.
  - destruct proxies as [ | p l ].
    + apply Permutation_nil in Hperm. subst proxies'.
      repeat split; reflexivity.
    + assert (Hne : map proxy_box (p :: l) <> []) by (cbn; congruence).
      assert (Hne' : map proxy_box proxies' <> []).
      { destruct proxies'; [ | cbn; congruence ].
        apply Permutation_sym, Permutation_nil in Hperm. discriminate. }
      pose proof (is_union_unique _ _ _ _
                    (childrenBoundingRect_is_union _ Hne)
                    (childrenBoundingRect_is_union _ Hne')) as Heq.
      destruct Heq as (Hx & Hy & Hw & Hh).
      { intros b. split; intros Hb.
        - eapply Permutation_in; [ apply Permutation_map, Hperm | exact Hb ].
        - eapply Permutation_in;
            [ apply Permutation_map, Permutation_sym, Hperm | exact Hb ]. }
      unfold rect_eq, marginsAdded; cbn [r_x r_y r_w r_h].
      rewrite Hx, Hy, Hw, Hh. repeat split; reflexivity.
  - intros Hne. exists (childrenBoundingRect (map proxy_box proxies)). split.
    + apply childrenBoundingRect_is_union. destruct proxies; cbn; congruence.
    + unfold marginsAdded, r_right, r_bottom; cbn [r_x r_y r_w r_h].
      repeat split; ring.
Qed.

Lemma C9_group_rect_witness :
  let ps := [("a", mkProxy 0 0 10 10); ("b", mkProxy 20 5 10 30)]%string in
  let ps' := [("b", mkProxy 20 5 10 30); ("a", mkProxy 0 0 10 10)]%string in
  Permutation ps ps' /\
  rect_eq (GroupWrapper_rect ps) (GroupWrapper_rect ps') /\
  rect_eq (GroupWrapper_rect ps) (mkRect (-5) (-5) 40 45).
Proof.
  cbv zeta.
  assert (Hp : Permutation
                 [("a", mkProxy 0 0 10 10); ("b", mkProxy 20 5 10 30)]%string
                 [("b", mkProxy 20 5 10 30); ("a", mkProxy 0 0 10 10)]%string)
    by apply perm_swap.
  split; [ exact Hp | split ].
  - exact (proj1 (C9_group_rect_union_margin _ _ Hp)).
  - vm_compute. repeat split; reflexivity.
Defined.

(* ================================================================== *)
(** * The scenario A -e-> B -s-> C *)
(* ================================================================== *)

Lemma abc_tree_built :
  build_tree abc_shapes abc_connections = Ok (abc_tree, "A"%string).
Proof. reflexivity. Qed.

(** C1, the claim as written fails.  The first placement of the layout from
    A moves B (B is the unpositioned parent of C), not C, and it centers B on
    C: C ends 5 to the right of B's left edge, not at x = B.x.  There is no
    third placement. *)
Lemma C1_no_placement_of_C :
  exists st : LState QtScene,
    abc_layout = Ok st /\
    map fst (setPos_calls (scene st)) = ["B"; "A"]%string /\
    let B := shape_pos_of (scene st) "B" in
    let C := shape_pos_of (scene st) "C" in
    ~ fst C == fst B /\ fst C == fst B + 5.
Proof.
  eexists. split; [ vm_compute; reflexivity | ].
  cbv zeta. repeat split; vm_compute; congruence.
Qed.

(** C1, as the code has it.  The layout from A with spacing 30 makes exactly
    two placements.  First B, the parent of C, is placed by the inverted
    direction [n] relative to C, which stays where it is (the origin):
    B.x = C.x + C.width/2 - B.width/2, B.y = C.y - 30 - B.height.  Then A is
    placed by the inverted direction [w] relative to B:
    A.x = B.x - 30 - A.width, A.y = B.y + B.height/2 - A.height/2.  B is not
    placed again; the final positions satisfy B.x = A.x + A.width + 30,
    B.y = A.y + A.height/2 - B.height/2 and C.y = B.y + B.height + 30. *)
Theorem C1_abc_two_placements :
  exists st : LState QtScene,
    abc_layout = Ok st /\
    let A := shape_pos_of (scene st) "A" in
    let B := shape_pos_of (scene st) "B" in
    let C := shape_pos_of (scene st) "C" in
    red_calls (scene st) = [("B"%string, B); ("A"%string, A)] /\
    C = (0, 0) /\
    fst B == fst C + 20 / 2 - 30 / 2 /\ snd B == snd C - 30 - 10 /\
    fst A == fst B - 30 - 40 /\ snd A == snd B + 10 / 2 - 20 / 2 /\
    fst B == fst A + 40 + 30 /\ snd B == snd A + 20 / 2 - 10 / 2 /\
    snd C == snd B + 10 + 30.
Proof.
  eexists. split; [ vm_compute; reflexivity | ].
  cbv zeta. repeat split; vm_compute; reflexivity.
Qed.

(** C3, the claim as written fails.  After the layout of the tree built for
    A -e-> B -s-> C the leaf C still has [positioned = False]. *)
Lemma C3_leaf_not_positioned :
  build_tree abc_shapes abc_connections = Ok (abc_tree, "A"%string) /\
  exists st : LState QtScene,
    abc_layout = Ok st /\
    positioned_of (nodes st) "C" = false /\
    positioned_of (nodes st) "A" = true /\
    positioned_of (nodes st) "B" = true.
Proof.
  split; [ reflexivity | ].
  eexists. split; [ vm_compute; reflexivity | ].
  repeat split.
Qed.

(** C4.  The list bound to [visited] is created once and shared by all calls
    that omit the argument.  After a first top-level call on A, a second
    top-level call on the same root (here on the nodes and scene items reset
    to their initial state, as after a teardown) finds A in the list and
    returns at once: nothing is placed, no node is marked.  With a new empty
    list the same call would make the two placements. *)
Theorem C4_second_call_is_skipped :
  exists st1 : LState QtScene,
    layout_default 10 "A" "A" [] abc_tree (new_scene abc_shapes) = Ok st1 /\
    visited st1 = ["A"; "B"]%string /\
    layout_default 10 "A" "A" (visited st1) abc_tree (new_scene abc_shapes)
      = Ok (mkL abc_tree (new_scene abc_shapes) (visited st1)) /\
    exists st2 : LState QtScene,
      layout 10 30 "A" "A" (mkL abc_tree (new_scene abc_shapes) []) = Ok st2 /\
      List.length (setPos_calls (scene st2)) = 2%nat.
Proof.
  eexists. split; [ vm_compute; reflexivity | ].
  split; [ reflexivity | ]. split; [ reflexivity | ].
  eexists. split; [ vm_compute; reflexivity | reflexivity ].
Qed.

(* ================================================================== *)
(** * Properties of the depth-first walk *)
(* ================================================================== *)

Lemma bind_Ok {A B : Type} (c : result A) (k : A -> result B) (b : B) :
  bind c k = Ok b -> exists a, c = Ok a /\ k a = Ok b.
Proof. destruct c as [a | err]; cbn; [ eauto | discriminate ]. Qed.

Lemma mem_In (x : Idx) (xs : list Idx) : mem x xs = true <-> In x xs.
Proof.
  unfold mem. rewrite existsb_exists. split.
  - intros (y & Hy & Heq). apply String.eqb_eq in Heq. now subst.
  - intros Hx. exists x. split; [ exact Hx | apply String.eqb_refl ].
Qed.

Lemma mem_not_In (x : Idx) (xs : list Idx) : mem x xs = false <-> ~ In x xs.
Proof.
  rewrite <- mem_In. destruct (mem x xs); split; congruence.
Qed.

Ltac inv_bind H :=
  let a := fresh "r" in
  let Ha := fresh "Hr" in
  apply bind_Ok in H; destruct H as (a & Ha & H).

Lemma walk_nodes_post (rec : Idx -> list Idx -> result (list Idx * list Idx)) :
  (forall i V res, rec i V = Ok res -> walk_post i V res) ->
  forall ns V out V',
    walk_nodes rec ns V = Ok (out, V') ->
    (forall m, In m V' <-> In m V \/ In m out) /\
    (forall c, In c ns -> In c V').
Proof.
  intros Hrec. induction ns as [ | node rest IH ]; intros V out V' Hw; cbn in Hw.
  - inversion Hw; subst. split; [ intros m; cbn; tauto | intros c [] ].
  - destruct (mem node V) eqn:Hmem.
    + destruct (IH _ _ _ Hw) as [Hv Hc]. split; [ exact Hv | ].
      intros c [<- | Hin]; [ | auto ].
      apply Hv. left. now apply mem_In.
    + inv_bind Hw. destruct r as [out1 V1].
      inv_bind Hw. destruct r as [out2 V2]. inversion Hw; subst.
      destruct (Hrec _ _ _ Hr) as [Hv1 Hself]. cbn [fst snd] in *.
      destruct (IH _ _ _ Hr0) as [Hv2 Hc2]. split.
      * intros m. rewrite Hv2, Hv1, !in_app_iff. cbn. split.
        -- intros [[[Hm | [<- | []]] | Hm] | Hm]; auto.
        -- intros [Hm | [Hm | Hm]]; auto.
      * intros c [<- | Hin]; [ | auto ].
        apply Hv2. left. apply Hv1. right. exact Hself.
Qed.

Lemma walk_post_holds (depth : nat) (st : store) :
  forall self V res, walk depth st self V = Ok res -> walk_post self V res.
Proof.
  induction depth as [ | depth IH ]; intros self V res Hw; cbn in Hw;
    [ discriminate | ].
  inv_bind Hw. destruct r as [out V1]. inversion Hw; subst.
  destruct (walk_nodes_post _ IH _ _ _ _ Hr) as [Hv _].
  split; cbn [fst snd].
  - intros m. rewrite !in_app_iff, Hv. cbn. tauto.
  - apply in_or_app. right. now left.
Qed.

(** Every direct child of a node is among the nodes its walk yields. *)
Lemma walk_yields_children (depth : nat) (st : store) (self : Idx) (out : list Idx) :
  walk_depth_first depth st self = Ok out ->
  forall c, In c (get_nodes st self) -> In c out.
Proof.
  unfold walk_depth_first. intros Hw c Hc.
  inv_bind Hw. destruct r as [out0 V0]. inversion Hw; subst.
  destruct depth as [ | depth ]; cbn in Hr; [ discriminate | ].
  inv_bind Hr. destruct r as [out1 V1]. inversion Hr; subst.
  destruct (walk_nodes_post _ (walk_post_holds depth st) _ _ _ _ Hr0) as [Hv Hch].
  apply in_or_app. left. specialize (Hch c Hc). apply Hv in Hch.
  destruct Hch as [[] | Hch]. exact Hch.
Qed.

(** The walk of a node with a child yields more than one node. *)
Lemma walk_of_parent_long (depth : nat) (st : store) (self : Idx) (out : list Idx) :
  walk_depth_first depth st self = Ok out ->
  get_nodes st self <> [] -> (1 < List.length out)%nat.
Proof.
  unfold walk_depth_first. intros Hw Hne.
  inv_bind Hw. destruct r as [out0 V0]. inversion Hw; subst.
  destruct depth as [ | depth ]; cbn in Hr; [ discriminate | ].
  inv_bind Hr. destruct r as [out1 V1]. inversion Hr; subst.
  destruct (get_nodes st self) as [ | c rest ] eqn:Hg; [ congruence | ].
  cbn in Hr0. inv_bind Hr0. destruct r as [out2 V2].
  inv_bind Hr0. destruct r as [out3 V3]. inversion Hr0; subst.
  destruct (walk_post_holds _ _ _ _ _ Hr1) as [_ Hin]. cbn [fst] in Hin.
  rewrite !length_app. cbn. destruct out2; [ destruct Hin | cbn; lia ].
Qed.

(** The walk of a node without children yields that node only. *)
Lemma walk_of_leaf (depth : nat) (st : store) (self : Idx) (out : list Idx) :
  walk_depth_first depth st self = Ok out ->
  get_nodes st self = [] -> out = [self].
Proof.
  unfold walk_depth_first. intros Hw He.
  inv_bind Hw. destruct r as [out0 V0]. inversion Hw; subst.
  destruct depth as [ | depth ]; cbn in Hr; [ discriminate | ].
  rewrite He in Hr. cbn in Hr. now inversion Hr.
Qed.

(** ** The walk on acyclic graphs *)

Section AcyclicWalk.
Variable st : store.
Variable rank : Idx -> nat.
Hypothesis rank_decreases :
  forall p c, In c (get_nodes st p) -> (rank c < rank p)%nat.

Lemma reachable_rank (p m : Idx) : reachable st p m -> (rank m <= rank p)%nat.
Proof.
  induction 1 as [ p | p c m Hc _ IH ]; [ lia | ].
  pose proof (rank_decreases _ _ Hc) as Hrk. lia.
Qed.

Lemma walk_nodes_dag (rec : Idx -> list Idx -> result (list Idx * list Idx))
    (bound : nat) :
  (forall i V, (rank i < bound)%nat ->
     exists res, rec i V = Ok res /\ dag_post st rank i V res) ->
  forall ns V, (forall c, In c ns -> (rank c < bound)%nat) ->
  exists out V',
    walk_nodes rec ns V = Ok (out, V') /\
    NoDup out /\
    (forall m, In m out -> ~ In m V /\ exists c, In c ns /\ reachable st c m) /\
    (forall m, In m V' <-> In m V \/ In m out) /\
    (forall m, In m out -> forall c, In c (get_nodes st m) -> In c V') /\
    (forall c, In c ns -> In c V').
Proof.
  intros Hrec. induction ns as [ | node rest IH ]; intros V Hb; cbn [walk_nodes].
  - exists [], V. split; [ reflexivity | ]. split; [ constructor | ].
    split; [ intros m [] | ]. split; [ intros m; cbn; tauto | ].
    split; [ intros m [] | intros c [] ].
  - assert (Hrest : forall c, In c rest -> (rank c < bound)%nat)
      by (intros c Hc; apply Hb; now right).
    destruct (mem node V) eqn:Hmem.
    + destruct (IH V Hrest) as (out & V' & Hw & Hnd & Hout & Hv & Hcl & Hns).
      exists out, V'. split; [ exact Hw | ]. split; [ exact Hnd | ].
      split; [ | split; [ exact Hv | split; [ exact Hcl | ] ] ].
      * intros m Hm. destruct (Hout m Hm) as [Hn (c & Hc & Hreach)].
        split; [ exact Hn | ]. exists c. split; [ now right | exact Hreach ].
      * intros c [<- | Hc]; [ | auto ]. apply Hv. left. now apply mem_In.
    + apply mem_not_In in Hmem.
      destruct (Hrec node (V ++ [node]) (Hb node (or_introl eq_refl)))
        as ([o1 V1] & Hr1 & out1 & Ho1 & Hnd1 & Hout1 & Hv1 & Hcl1).
      cbn [fst snd] in *. subst o1.
      destruct (IH V1 Hrest) as (out2 & V2 & Hw2 & Hnd2 & Hout2 & Hv2 & Hcl2 & Hns2).
      exists ((out1 ++ [node]) ++ out2), V2. rewrite Hr1. cbn [bind].
      rewrite Hw2. cbn [bind].
      assert (Hnode1 : ~ In node out1).
      { intros Hin. destruct (Hout1 _ Hin) as (_ & Hlt & _). lia. }
      split; [ reflexivity | ]. split; [ | split; [ | split; [ | split ] ] ].
      * apply NoDup_app; [ apply NoDup_app | exact Hnd2 | ];
          [ exact Hnd1 | repeat constructor; intros [] | | ].
        -- intros m Hm [<- | []]. contradiction.
        -- intros m Hm Hm2. destruct (Hout2 _ Hm2) as [Hn _]. apply Hn.
           apply Hv1. right. apply in_app_iff in Hm.
           destruct Hm as [Hm | [<- | []]]; auto.
      * intros m Hm. apply in_app_iff in Hm. destruct Hm as [Hm | Hm].
        -- apply in_app_iff in Hm. destruct Hm as [Hm | [<- | []]].
           ++ destruct (Hout1 _ Hm) as (Hn & _ & Hreach). split.
              ** intros HV. apply Hn. apply in_or_app. now left.
              ** exists node. split; [ now left | exact Hreach ].
           ++ split; [ exact Hmem | ]. exists node. split; [ now left | constructor ].
        -- destruct (Hout2 _ Hm) as (Hn & c & Hc & Hreach). split.
           ++ intros HV. apply Hn. apply Hv1. left. apply in_or_app. now left.
           ++ exists c. split; [ now right | exact Hreach ].
      * intros m. rewrite Hv2, Hv1, !in_app_iff. cbn.
        intuition (subst; auto).
      * intros m Hm c Hc. apply in_app_iff in Hm. destruct Hm as [Hm | Hm].
        -- apply Hv2. left. apply (Hcl1 m); [ | exact Hc ].
           apply in_app_iff in Hm. destruct Hm as [Hm | [<- | []]]; auto.
        -- now apply (Hcl2 m).
      * intros c [<- | Hc]; [ | auto ].
        apply Hv2. left. apply Hv1. right. now right.
Qed.

Lemma walk_dag (depth : nat) : forall self V,
  (rank self < depth)%nat ->
  exists res, walk depth st self V = Ok res /\ dag_post st rank self V res.
Proof.
  induction depth as [ | depth IH ]; intros self V Hlt; [ lia | ].
  cbn [walk].
  destruct (walk_nodes_dag (walk depth st) depth IH (get_nodes st self) V)
    as (out & V' & Hw & Hnd & Hout & Hv & Hcl & Hns).
  { intros c Hc. pose proof (rank_decreases _ _ Hc) as Hrk. lia. }
  rewrite Hw. cbn [bind]. eexists. split; [ reflexivity | ].
  exists out. cbn [fst snd].
  split; [ reflexivity | ]. split; [ exact Hnd | ]. split; [ | split ].
  - intros m Hm. destruct (Hout _ Hm) as [Hn (c & Hc & Hreach)].
    pose proof (rank_decreases _ _ Hc) as Hrk.
    pose proof (reachable_rank _ _ Hreach) as Hle.
    split; [ exact Hn | split; [ lia | econstructor; eauto ] ].
  - intros m. rewrite in_app_iff, Hv. cbn. intuition (subst; auto).
  - intros m Hm c Hc. apply in_or_app. left. destruct Hm as [Hm | ->].
    + now apply (Hcl m).
    + now apply Hns.
Qed.

(** C10.  On an acyclic graph of nodes (the rank of a child is below the
    rank of its parent), [walk_depth_first] called without [visited], with
    stack depth to spare, yields the nodes reachable from the start, each
    exactly once, the start last.  A node listed under two directions or
    reachable along two paths is yielded once as well: nothing is assumed
    on that. *)
Theorem C10_walk_yields_reachable_once (start : Idx) (depth : nat) :
  (rank start < depth)%nat ->
  exists out,
    walk_depth_first depth st start = Ok (out ++ [start]) /\
    NoDup (out ++ [start]) /\
    (forall m, In m (out ++ [start]) <-> reachable st start m).
Proof.
  intros Hlt. unfold walk_depth_first.
  destruct (walk_dag depth start [] Hlt)
    as ([o V'] & Hw & out & Ho & Hnd & Hout & Hv & Hcl).
  cbn [fst snd] in *. subst o. exists out. rewrite Hw. cbn [bind].
  split; [ reflexivity | ]. split.
  - apply NoDup_app; [ exact Hnd | repeat constructor; intros [] | ].
    intros m Hm [<- | []]. destruct (Hout _ Hm) as (_ & Hr & _). lia.
  - intros m. split.
    + intros Hm. apply in_app_iff in Hm. destruct Hm as [Hm | [<- | []]].
      * now apply Hout.
      * constructor.
    + assert (Hclosed : forall p q, reachable st p q ->
                In p (out ++ [start]) -> In q (out ++ [start])).
      { induction 1 as [ p | p c q Hc _ IH ]; [ auto | ].
        intros Hp. apply IH.
        assert (Hc' : In c V').
        { apply (Hcl p); [ | exact Hc ].
          apply in_app_iff in Hp. destruct Hp as [Hp | [<- | []]]; auto. }
        apply Hv in Hc'. apply in_or_app.
        destruct Hc' as [[] | [Hc' | ->]]; [ now left | right; now left ]. }
      intros Hreach. apply (Hclosed _ _ Hreach).
      apply in_or_app. right. now left.
Qed.

End AcyclicWalk.

(* ================================================================== *)
(** * The node store under updates *)
(* ================================================================== *)

Lemma connections_of_skeleton (st : store) (i : Idx) :
  connections_of st i
  = match dict_get (skeleton st) i with Some c => c | None => [] end.
Proof.
  unfold connections_of. induction st as [ | [k nd] rest IH ]; cbn; [ reflexivity | ].
  destruct (String.eqb k i); [ reflexivity | exact IH ].
Qed.

Lemma get_nodes_skeleton (st st' : store) (i : Idx) :
  skeleton st = skeleton st' -> get_nodes st i = get_nodes st' i.
Proof.
  intros Hs. unfold get_nodes. now rewrite !connections_of_skeleton, Hs.
Qed.

Lemma get_direction_skeleton (st st' : store) (p c : Idx) :
  skeleton st = skeleton st' ->
  get_direction_to_child st p c = get_direction_to_child st' p c.
Proof.
  intros Hs. unfold get_direction_to_child.
  now rewrite !connections_of_skeleton, Hs.
Qed.

Lemma walk_nodes_ext (rec rec' : Idx -> list Idx -> result (list Idx * list Idx)) :
  (forall i V, rec i V = rec' i V) ->
  forall ns V, walk_nodes rec ns V = walk_nodes rec' ns V.
Proof.
  intros Hrec. induction ns as [ | node rest IH ]; intros V; cbn; [ reflexivity | ].
  destruct (mem node V); [ apply IH | ].
  rewrite Hrec. destruct (rec' node (V ++ [node])) as [[out1 V1] | err]; cbn;
    [ now rewrite IH | reflexivity ].
Qed.

Lemma walk_skeleton (st st' : store) :
  skeleton st = skeleton st' ->
  forall depth self V, walk depth st self V = walk depth st' self V.
Proof.
  intros Hs. induction depth as [ | depth IH ]; intros self V; cbn; [ reflexivity | ].
  rewrite (get_nodes_skeleton _ _ self Hs).
  now rewrite (walk_nodes_ext _ _ IH).
Qed.

Lemma walk_depth_first_skeleton (st st' : store) (depth : nat) (self : Idx) :
  skeleton st = skeleton st' ->
  walk_depth_first depth st self = walk_depth_first depth st' self.
Proof.
  intros Hs. unfold walk_depth_first. now rewrite (walk_skeleton _ _ Hs).
Qed.

Lemma skeleton_update_node (st : store) (i : Idx) (f : DiagramNode -> DiagramNode) :
  (forall nd, connections (f nd) = connections nd) ->
  skeleton (update_node st i f) = skeleton st.
Proof.
  intros Hf. unfold skeleton.
  induction st as [ | [k nd] rest IH ]; cbn; [ reflexivity | ].
  destruct (String.eqb k i); cbn; [ now rewrite Hf | now rewrite IH ].
Qed.

Lemma skeleton_set_positioned (st : store) (i : Idx) :
  skeleton (set_positioned st i) = skeleton st.
Proof. apply skeleton_update_node. reflexivity. Qed.

Lemma find_update_same (st : store) (i : Idx) (f : DiagramNode -> DiagramNode) :
  find_node (update_node st i f) i = option_map f (find_node st i).
Proof.
  induction st as [ | [k nd] rest IH ]; cbn; [ reflexivity | ].
  destruct (String.eqb k i) eqn:E; cbn; rewrite E; [ reflexivity | exact IH ].
Qed.

Lemma find_update_other (st : store) (i j : Idx) (f : DiagramNode -> DiagramNode) :
  i <> j -> find_node (update_node st i f) j = find_node st j.
Proof.
  intros Hne. induction st as [ | [k nd] rest IH ]; cbn; [ reflexivity | ].
  destruct (String.eqb k i) eqn:E; cbn.
  - apply String.eqb_eq in E. subst k.
    destruct (String.eqb i j) eqn:E'; [ | reflexivity ].
    apply String.eqb_eq in E'. contradiction.
  - destruct (String.eqb k j); [ reflexivity | exact IH ].
Qed.

Lemma positioned_set_same (st : store) (p : Idx) :
  find_node st p <> None -> positioned_of (set_positioned st p) p = true.
Proof.
  intros Hf. unfold positioned_of, set_positioned. rewrite find_update_same.
  destruct (find_node st p); [ reflexivity | congruence ].
Qed.

Lemma positioned_set_other (st : store) (p i : Idx) :
  p <> i -> positioned_of (set_positioned st p) i = positioned_of st i.
Proof.
  intros Hne. unfold positioned_of, set_positioned.
  now rewrite find_update_other.
Qed.

Lemma positioned_set_mono (st : store) (p i : Idx) :
  positioned_of st i = true -> positioned_of (set_positioned st p) i = true.
Proof.
  intros Hp. destruct (String.eqb_spec p i) as [-> | Hne].
  - apply positioned_set_same. unfold positioned_of in Hp.
    destruct (find_node st i); congruence.
  - now rewrite positioned_set_other.
Qed.

Lemma get_nodes_find (st : store) (i : Idx) :
  get_nodes st i <> [] -> find_node st i <> None.
Proof.
  unfold get_nodes, connections_of. destruct (find_node st i); cbn; congruence.
Qed.

Lemma direction_to_child_Ok (conns : list (Direction * list Idx)) (c : Idx) (d : Direction) :
  direction_to_child conns c = Ok d -> In c (flat_map snd conns).
Proof.
  induction conns as [ | [k ns] rest IH ]; cbn; [ discriminate | ].
  destruct (mem c ns) eqn:E; intros Hd; apply in_or_app.
  - left. now apply mem_In.
  - right. auto.
Qed.

Lemma direction_to_child_found (conns : list (Direction * list Idx)) (c : Idx) :
  In c (flat_map snd conns) -> exists d, direction_to_child conns c = Ok d.
Proof.
  induction conns as [ | [k ns] rest IH ]; cbn; [ intros [] | ].
  intros Hin. destruct (mem c ns) eqn:E; [ eauto | ].
  apply in_app_iff in Hin. destruct Hin as [Hin | Hin]; [ | auto ].
  apply mem_In in Hin. congruence.
Qed.

Lemma direction_to_child_Raise (conns : list (Direction * list Idx)) (c : Idx) (err : exn) :
  direction_to_child conns c = Raise err -> err = ValueError "not connected".
Proof.
  induction conns as [ | [k ns] rest IH ]; cbn; [ congruence | ].
  destruct (mem c ns); [ discriminate | exact IH ].
Qed.

Lemma dict_set_not_nil (d : list (Direction * Idx)) (k : Direction) (v : Idx) :
  dict_set d k v <> [].
Proof.
  destruct d as [ | [k' v'] rest ]; cbn; [ discriminate | ].
  destruct (Direction_eqb k' k); discriminate.
Qed.

(* ================================================================== *)
(** * Properties of the layout traversal *)
(* ================================================================== *)

Section LayoutProperties.
Context {Sc : Type} `{Canvas Sc}.
Variable G : store.

Lemma layout_step_refl (st : LState Sc) :
  skeleton (nodes st) = skeleton G -> layout_step G st st.
Proof.
  intros Hs. split; [ exact Hs | ]. split; [ apply incl_refl | ].
  split; [ auto | ]. split; auto.
Qed.

Lemma layout_step_trans (st1 st2 st3 : LState Sc) :
  layout_step G st1 st2 -> layout_step G st2 st3 -> layout_step G st1 st3.
Proof.
  intros (Hs1 & Hv1 & Hm1 & Hl1 & Hi1) (Hs2 & Hv2 & Hm2 & Hl2 & Hi2).
  split; [ exact Hs2 | ]. split; [ eapply incl_tran; eauto | ].
  split; [ auto | ]. split; [ | auto ].
  intros i Hi. rewrite Hl2, Hl1; auto.
Qed.

Lemma layout_place_nodes (ms : Q) (parent : Idx) (st : LState Sc)
    (dir : Direction) (node : Idx) :
  nodes (layout_place ms parent st dir node)
  = (if positioned_of (nodes st) parent then nodes st
     else set_positioned (nodes st) parent) /\
  visited (layout_place ms parent st dir node) = visited st.
Proof.
  unfold layout_place. destruct (positioned_of (nodes st) parent).
  - destruct (calculate_position _ _ _ _ false) as [x y]. split; reflexivity.
  - destruct (calculate_position _ _ _ _ true) as [x y]. split; reflexivity.
Qed.

Lemma layout_place_all_facts (ms : Q) (parent : Idx) (conns : list (Direction * Idx)) :
  forall st : LState Sc,
    let st' := layout_place_all ms parent conns st in
    visited st' = visited st /\
    skeleton (nodes st') = skeleton (nodes st) /\
    (forall i, positioned_of (nodes st) i = true -> positioned_of (nodes st') i = true) /\
    (forall i, parent <> i -> positioned_of (nodes st') i = positioned_of (nodes st) i) /\
    (conns = [] -> nodes st' = nodes st) /\
    (conns <> [] -> find_node (nodes st) parent <> None ->
     positioned_of (nodes st') parent = true).
Proof.
  induction conns as [ | [dir node] rest IH ]; intros st; cbn zeta.
  - cbn. repeat split; auto; congruence.
  - unfold layout_place_all in *. cbn [fold_left].
    specialize (IH (layout_place ms parent st dir node)). cbn zeta in IH.
    destruct IH as (Hv & Hs & Hm & Ho & _ & _).
    destruct (layout_place_nodes ms parent st dir node) as [Hn Hv1].
    set (st1 := layout_place ms parent st dir node) in *.
    assert (Hs1 : skeleton (nodes st1) = skeleton (nodes st)).
    { rewrite Hn. destruct (positioned_of (nodes st) parent);
        [ reflexivity | apply skeleton_set_positioned ]. }
    assert (Hm1 : forall i, positioned_of (nodes st) i = true ->
                            positioned_of (nodes st1) i = true).
    { intros i Hi. rewrite Hn. destruct (positioned_of (nodes st) parent);
        [ exact Hi | now apply positioned_set_mono ]. }
    split; [ congruence | ]. split; [ congruence | ].
    split; [ auto | ]. split; [ | split; [ discriminate | ] ].
    + intros i Hne. rewrite (Ho i Hne), Hn.
      destruct (positioned_of (nodes st) parent);
        [ reflexivity | now apply positioned_set_other ].
    + intros _ Hf. apply Hm. rewrite Hn.
      destruct (positioned_of (nodes st) parent) eqn:E;
        [ exact E | now apply positioned_set_same ].
Qed.

Lemma layout_inv_push (Stack : list Idx) (st : LState Sc) (parent : Idx) :
  layout_inv G Stack st -> layout_inv G (parent :: Stack) (add_visited st parent).
Proof.
  intros Hinv v Hv Hns Hch. cbn in Hv. apply in_app_iff in Hv.
  destruct Hv as [Hv | [<- | []]].
  - destruct (Hinv v Hv) as [Hp Hc]; [ | exact Hch | ].
    + intros Hin. apply Hns. now right.
    + split; [ exact Hp | ]. intros c Hc1 Hc2. cbn.
      apply in_or_app. left. auto.
  - exfalso. apply Hns. now left.
Qed.

(** The first loop of [layout], given what the recursive calls do. *)
Lemma layout_scan_facts (rec : Idx -> LState Sc -> result (LState Sc))
    (depth : nat) (parent : Idx) :
  (forall node st st', rec node st = Ok st' -> skeleton (nodes st) = skeleton G ->
     layout_step G st st' /\ In node (visited st')) ->
  forall yielded conns st conns' st',
    layout_scan rec depth parent yielded conns st = Ok (conns', st') ->
    skeleton (nodes st) = skeleton G ->
    layout_step G st st' /\
    (forall c, In c yielded -> In c (get_nodes G parent) -> get_nodes G c <> [] ->
       In c (visited st')) /\
    (conns <> [] \/ (exists c, In c yielded /\ In c (get_nodes G parent)) ->
     conns' <> []) /\
    (conns' <> [] -> conns <> [] \/ get_nodes G parent <> []).
Proof.
  intros Hrec. induction yielded as [ | node rest IH ];
    intros conns st conns' st' Hscan Hs; cbn [layout_scan] in Hscan.
  - inversion Hscan; subst. split; [ now apply layout_step_refl | ].
    split; [ intros c [] | ]. split; [ | auto ].
    intros [Hc | (c & [] & _)]. exact Hc.
  - destruct (get_direction_to_child (nodes st) parent node) as [dir | err] eqn:Hdir.
    + inv_bind Hscan. rename r into child. rename Hr into Hchild.
      inv_bind Hscan. rename r into st1. rename Hr into Hst1.
      assert (Hnode : In node (get_nodes G parent)).
      { rewrite (get_direction_skeleton _ G _ _ Hs) in Hdir.
        now apply direction_to_child_Ok in Hdir. }
      assert (Hstep1 : layout_step G st st1 /\
                       (get_nodes G node <> [] -> In node (visited st1))).
      { destruct (1 <? List.length child)%nat eqn:Hlen.
        - destruct (Hrec _ _ _ Hst1 Hs) as [Hstep Hin]. split; auto.
        - inversion Hst1; subst st1. split; [ now apply layout_step_refl | ].
          intros Hch. rewrite <- (get_nodes_skeleton _ _ node Hs) in Hch.
          pose proof (walk_of_parent_long _ _ _ _ Hchild Hch) as Hlong.
          apply Nat.ltb_ge in Hlen. lia. }
      destruct Hstep1 as [Hstep1 Hvis1].
      destruct (IH _ _ _ _ Hscan (proj1 Hstep1)) as (Hstep2 & Hvis2 & Hne2 & _).
      split; [ eapply layout_step_trans; eauto | ].
      split; [ | split ].
      * intros c [<- | Hc] Hc1 Hc2; [ | auto ].
        destruct Hstep2 as (_ & Hincl & _). apply Hincl. auto.
      * intros _. apply Hne2. left. apply dict_set_not_nil.
      * intros _. right. intros He. rewrite He in Hnode. destruct Hnode.
    + destruct err as [msg | key | ]; try discriminate.
      destruct (IH _ _ _ _ Hscan Hs) as (Hstep2 & Hvis2 & Hne2 & Hne3).
      assert (Hnot : ~ In node (get_nodes G parent)).
      { intros Hin. rewrite (get_direction_skeleton _ G _ _ Hs) in Hdir.
        destruct (direction_to_child_found _ _ Hin) as [d Hd].
        unfold get_direction_to_child in Hdir. congruence. }
      split; [ exact Hstep2 | ]. split; [ | split; [ | exact Hne3 ] ].
      * intros c [<- | Hc] Hc1 Hc2; [ contradiction | auto ].
      * intros [Hc | (c & [<- | Hc] & Hc1)]; [ auto | contradiction | ].
        apply Hne2. right. eauto.
Qed.

(** A call on a node that is in [visited] returns at once. *)
Lemma layout_skips_visited (depth : nat) (ms : Q) (root parent : Idx)
    (st : LState Sc) :
  In parent (visited st) -> layout (S depth) ms root parent st = Ok st.
Proof.
  intros Hin. cbn [layout]. apply mem_In in Hin. now rewrite Hin.
Qed.

(** What a call of [layout] that returns does. *)
Lemma layout_facts (depth : nat) (ms : Q) (root : Idx) :
  forall parent st st',
    layout depth ms root parent st = Ok st' ->
    skeleton (nodes st) = skeleton G ->
    layout_step G st st' /\ In parent (visited st').
Proof.
  induction depth as [ | depth IH ]; intros parent st st' Hl Hs;
    cbn [layout] in Hl; [ discriminate | ].
  destruct (mem parent (visited st)) eqn:Hmem.
  - inversion Hl; subst st'. split; [ now apply layout_step_refl | ].
    now apply mem_In.
  - inv_bind Hl. rename r into yielded. rename Hr into Hwalk.
    inv_bind Hl. destruct r as [conns st1]. rename Hr into Hscan.
    inversion Hl; subst st'. clear Hl.
    set (st0 := add_visited st parent) in *.
    assert (Hs0 : skeleton (nodes st0) = skeleton G) by exact Hs.
    destruct (layout_scan_facts _ depth parent (IH) _ _ _ _ _ Hscan Hs0)
      as ((Hs1 & Hv1 & Hm1 & Hl1 & Hi1) & Hvis & Hne & Hne').
    destruct (layout_place_all_facts ms parent conns st1)
      as (Pv & Ps & Pm & Po & Pnil & Ppos).
    set (st' := layout_place_all ms parent conns st1) in *.
    assert (Hchildren : forall c, In c (get_nodes G parent) -> In c yielded).
    { intros c Hc. apply (walk_yields_children _ _ _ _ Hwalk).
      now rewrite (get_nodes_skeleton _ G parent Hs0). }
    assert (Hin0 : In parent (visited st0)).
    { cbn. apply in_or_app. right. now left. }
    split; [ | rewrite Pv; auto ].
    split; [ congruence | ]. split; [ | split; [ | split ] ].
    + intros x Hx. rewrite Pv. apply Hv1. cbn. apply in_or_app. now left.
    + intros i Hi. apply Pm, Hm1. exact Hi.
    + intros i Hi. destruct (String.eqb_spec parent i) as [<- | Hne0].
      * rewrite Pnil; [ now apply Hl1 | ].
        destruct conns as [ | c0 conns0 ]; [ reflexivity | ].
        destruct Hne' as [Hc | Hc]; congruence.
      * rewrite (Po i Hne0). now apply Hl1.
    + intros Stack Hinv v Hv Hns Hch. rewrite Pv in *.
      destruct (String.eqb_spec parent v) as [<- | Hne0].
      * split.
        -- apply Ppos.
           ++ apply Hne. right.
              destruct (get_nodes G parent) as [ | c0 l0 ] eqn:Hg; [ congruence | ].
              exists c0. split; [ apply Hchildren | ]; now left.
           ++ apply get_nodes_find.
              now rewrite (get_nodes_skeleton _ G parent Hs1).
        -- intros c Hc Hcc. apply Hvis; auto.
      * destruct (Hi1 (parent :: Stack) (layout_inv_push _ _ _ Hinv) v Hv)
          as [Hp Hc]; [ | exact Hch | ].
        -- intros [Heq | Hin]; [ contradiction | contradiction ].
        -- split; [ now apply Pm | exact Hc ].
Qed.

Lemma walk_nodes_raises (rec : Idx -> list Idx -> result (list Idx * list Idx)) :
  (forall i V err, rec i V = Raise err -> err = RecursionError) ->
  forall ns V err, walk_nodes rec ns V = Raise err -> err = RecursionError.
Proof.
  intros Hrec. induction ns as [ | node rest IH ]; intros V err Hw; cbn in Hw;
    [ discriminate | ].
  destruct (mem node V); [ eauto | ].
  destruct (rec node (V ++ [node])) as [[out1 V1] | err1] eqn:Hr; cbn in Hw.
  - destruct (walk_nodes rec rest V1) as [[out2 V2] | err2] eqn:Hr2; cbn in Hw;
      [ discriminate | ].
    inversion Hw; subst. eauto.
  - inversion Hw; subst. eauto.
Qed.

Lemma walk_raises (depth : nat) (st : store) :
  forall self V err, walk depth st self V = Raise err -> err = RecursionError.
Proof.
  induction depth as [ | depth IH ]; intros self V err Hw; cbn in Hw;
    [ congruence | ].
  destruct (walk_nodes (walk depth st) (get_nodes st self) V)
    as [[out V1] | err1] eqn:Hr; cbn in Hw; [ discriminate | ].
  inversion Hw; subst. eapply walk_nodes_raises; eauto.
Qed.

Lemma walk_depth_first_raises (depth : nat) (st : store) (self : Idx) (err : exn) :
  walk_depth_first depth st self = Raise err -> err = RecursionError.
Proof.
  unfold walk_depth_first.
  destruct (walk depth st self []) as [[out V] | err1] eqn:Hw; cbn;
    [ discriminate | ].
  intros Heq. inversion Heq; subst. eapply walk_raises; eauto.
Qed.

Lemma layout_scan_raises (rec : Idx -> LState Sc -> result (LState Sc))
    (depth : nat) (parent : Idx) :
  (forall node st err, rec node st = Raise err -> err = RecursionError) ->
  forall yielded conns st err,
    layout_scan rec depth parent yielded conns st = Raise err ->
    err = RecursionError.
Proof.
  intros Hrec. induction yielded as [ | node rest IH ]; intros conns st err Hscan;
    cbn [layout_scan] in Hscan; [ discriminate | ].
  destruct (get_direction_to_child (nodes st) parent node) as [dir | err0] eqn:Hdir.
  - destruct (walk_depth_first depth (nodes st) node) as [child | err1] eqn:Hw;
      cbn [bind] in Hscan.
    + destruct (1 <? List.length child)%nat.
      * destruct (rec node st) as [st1 | err2] eqn:Hr; cbn [bind] in Hscan;
          [ eauto | ].
        inversion Hscan; subst. eauto.
      * cbn [bind] in Hscan. eauto.
    + inversion Hscan; subst. eapply walk_depth_first_raises; eauto.
  - apply direction_to_child_Raise in Hdir. subst err0. eauto.
Qed.

Lemma layout_raises (depth : nat) (ms : Q) (root : Idx) :
  forall parent st err,
    layout depth ms root parent st = Raise err -> err = RecursionError.
Proof.
  induction depth as [ | depth IH ]; intros parent st err Hl; cbn [layout] in Hl;
    [ congruence | ].
  destruct (mem parent (visited st)); [ discriminate | ].
  destruct (walk_depth_first depth (nodes (add_visited st parent)) parent)
    as [yielded | err1] eqn:Hw; cbn [bind] in Hl.
  - destruct (layout_scan (layout depth ms root) depth parent yielded []
                (add_visited st parent)) as [[conns st1] | err2] eqn:Hscan;
      cbn [bind] in Hl; [ discriminate | ].
    inversion Hl; subst. eapply layout_scan_raises; eauto.
  - inversion Hl; subst. eapply walk_depth_first_raises; eauto.
Qed.

End LayoutProperties.

(* ================================================================== *)
(** * Termination of the traversals *)
(* ================================================================== *)

Lemma fresh_incl_le (U V V' : list Idx) :
  incl V V' -> (List.length (fresh U V') <= List.length (fresh U V))%nat.
Proof.
  intros Hincl. unfold fresh. induction U as [ | x U IH ]; cbn; [ lia | ].
  destruct (mem x V') eqn:E'; destruct (mem x V) eqn:E; cbn; try lia.
  apply mem_In in E. apply Hincl in E. apply mem_In in E. congruence.
Qed.

Lemma fresh_add_lt (U V : list Idx) (c : Idx) :
  In c U -> ~ In c V ->
  (List.length (fresh U (V ++ [c])) < List.length (fresh U V))%nat.
Proof.
  intros Hc Hn. unfold fresh. induction U as [ | x U IH ]; [ destruct Hc | ].
  cbn [filter].
  assert (Hle : (List.length (fresh U (V ++ [c])) <= List.length (fresh U V))%nat).
  { apply fresh_incl_le. intros y Hy. apply in_or_app. now left. }
  unfold fresh in Hle.
  destruct (String.eqb_spec x c) as [-> | Hne].
  - assert (E1 : mem c (V ++ [c]) = true).
    { apply mem_In, in_or_app. right. now left. }
    assert (E2 : mem c V = false) by now apply mem_not_In.
    rewrite E1, E2. cbn. lia.
  - destruct Hc as [Hc | Hc]; [ contradiction | ].
    specialize (IH Hc).
    assert (E : mem x (V ++ [c]) = mem x V).
    { destruct (mem x V) eqn:E2.
      - apply mem_In, in_or_app. left. now apply mem_In.
      - apply mem_not_In. intros Hin. apply in_app_iff in Hin.
        destruct Hin as [Hin | [Heq | []]]; [ | congruence ].
        apply mem_In in Hin. congruence. }
    rewrite E. destruct (mem x V); cbn; lia.
Qed.

Lemma fresh_length (U V : list Idx) : (List.length (fresh U V) <= List.length U)%nat.
Proof. apply filter_length_le. Qed.

Lemma get_nodes_all_children (G : store) (i c : Idx) :
  In c (get_nodes G i) -> In c (all_children G).
Proof.
  unfold get_nodes, connections_of, all_children.
  induction G as [ | [k nd] rest IH ]; cbn; [ intros [] | ].
  intros Hc. apply in_or_app. destruct (String.eqb k i); [ now left | right; auto ].
Qed.

Section WalkTermination.
Variable G : store.
Variable U : list Idx.
Hypothesis U_children : forall c, In c (all_children G) -> In c U.

Lemma walk_nodes_total (depth : nat) :
  (forall self V, (List.length (fresh U V) < depth)%nat ->
     exists out V', walk depth G self V = Ok (out, V') /\ incl V V') ->
  forall ns V, (forall c, In c ns -> In c U) ->
    (List.length (fresh U V) <= depth)%nat ->
    exists out V', walk_nodes (walk depth G) ns V = Ok (out, V') /\ incl V V'.
Proof.
  intros Hrec. induction ns as [ | node rest IH ]; intros V Hns Hle; cbn [walk_nodes].
  - exists [], V. split; [ reflexivity | apply incl_refl ].
  - assert (Hrest : forall c, In c rest -> In c U) by (intros c Hc; apply Hns; now right).
    destruct (mem node V) eqn:Hmem; [ now apply IH | ].
    apply mem_not_In in Hmem.
    pose proof (fresh_add_lt U V node (Hns node (or_introl eq_refl)) Hmem) as Hlt.
    destruct (Hrec node (V ++ [node])) as (out1 & V1 & Hw1 & Hi1); [ lia | ].
    rewrite Hw1. cbn [bind].
    destruct (IH V1 Hrest) as (out2 & V2 & Hw2 & Hi2).
    { pose proof (fresh_incl_le U _ _ Hi1). lia. }
    rewrite Hw2. cbn [bind]. eexists _, _. split; [ reflexivity | ].
    intros x Hx. apply Hi2, Hi1, in_or_app. now left.
Qed.

Lemma walk_total (depth : nat) : forall self V,
  (List.length (fresh U V) < depth)%nat ->
  exists out V', walk depth G self V = Ok (out, V') /\ incl V V'.
Proof.
  induction depth as [ | depth IH ]; intros self V Hlt; [ lia | ].
  cbn [walk].
  destruct (walk_nodes_total depth IH (get_nodes G self) V) as (out & V' & Hw & Hi).
  - intros c Hc. eapply U_children, get_nodes_all_children, Hc.
  - lia.
  - rewrite Hw. cbn [bind]. eexists _, _. split; [ reflexivity | ].
    intros x Hx. apply in_or_app. left. auto.
Qed.

(** A walk returns when the stack is deeper than the number of ids. *)
Lemma walk_depth_first_total (depth : nat) (self : Idx) :
  (List.length U < depth)%nat ->
  exists out, walk_depth_first depth G self = Ok out.
Proof.
  intros Hlt. unfold walk_depth_first.
  destruct (walk_total depth self []) as (out & V' & Hw & _).
  - pose proof (fresh_length U []). lia.
  - rewrite Hw. cbn. eauto.
Qed.

End WalkTermination.

Section LayoutTermination.
Context {Sc : Type} `{Canvas Sc}.
Variable G : store.
Variable U : list Idx.
Hypothesis U_children : forall c, In c (all_children G) -> In c U.

Lemma layout_scan_total (rec : Idx -> LState Sc -> result (LState Sc))
    (depth : nat) (parent : Idx) :
  (forall node st, In node U -> skeleton (nodes st) = skeleton G ->
     (List.length U + List.length (fresh U (visited st)) + 1 <= depth)%nat ->
     exists st', rec node st = Ok st') ->
  (forall node st st', rec node st = Ok st' -> skeleton (nodes st) = skeleton G ->
     layout_step G st st' /\ In node (visited st')) ->
  forall yielded conns st,
    skeleton (nodes st) = skeleton G ->
    (List.length U + List.length (fresh U (visited st)) + 1 <= depth)%nat ->
    exists conns' st', layout_scan rec depth parent yielded conns st = Ok (conns', st').
Proof.
  intros Hrec Hfacts. induction yielded as [ | node rest IH ]; intros conns st Hs Hle;
    cbn [layout_scan]; [ eauto | ].
  destruct (get_direction_to_child (nodes st) parent node) as [dir | err] eqn:Hdir.
  - assert (Hnode : In node U).
    { rewrite (get_direction_skeleton _ G _ _ Hs) in Hdir.
      apply direction_to_child_Ok in Hdir.
      eapply U_children, get_nodes_all_children, Hdir. }
    destruct (walk_depth_first_total G U U_children depth node) as [child Hw]; [ lia | ].
    rewrite (walk_depth_first_skeleton _ G _ _ Hs), Hw. cbn [bind].
    destruct (1 <? List.length child)%nat.
    + destruct (Hrec node st Hnode Hs Hle) as [st1 Hr]. rewrite Hr. cbn [bind].
      destruct (Hfacts _ _ _ Hr Hs) as [(Hs1 & Hv1 & _) _].
      apply IH; [ exact Hs1 | ].
      pose proof (fresh_incl_le U _ _ Hv1). lia.
    + cbn [bind]. now apply IH.
  - apply direction_to_child_Raise in Hdir. subst err. now apply IH.
Qed.

Lemma layout_total_aux (ms : Q) (root : Idx) (depth : nat) :
  forall parent st,
    In parent U -> skeleton (nodes st) = skeleton G ->
    (List.length U + List.length (fresh U (visited st)) + 1 <= depth)%nat ->
    exists st', layout depth ms root parent st = Ok st'.
Proof.
  induction depth as [ | depth IH ]; intros parent st Hp Hs Hle; [ lia | ].
  cbn [layout]. destruct (mem parent (visited st)) eqn:Hmem; [ eauto | ].
  apply mem_not_In in Hmem.
  pose proof (fresh_add_lt U _ _ Hp Hmem) as Hlt.
  destruct (walk_depth_first_total G U U_children depth parent) as [yielded Hw];
    [ lia | ].
  change (nodes (add_visited st parent)) with (nodes st).
  rewrite (walk_depth_first_skeleton _ G _ _ Hs), Hw. cbn [bind].
  destruct (layout_scan_total (layout depth ms root) depth parent IH
              (layout_facts G depth ms root) yielded [] (add_visited st parent))
    as (conns & st1 & Hscan).
  - exact Hs.
  - cbn [visited add_visited]. lia.
  - rewrite Hscan. cbn [bind]. eauto.
Qed.

End LayoutTermination.

(** A call of [layout] returns when the stack is deep enough: twice the
    number of ids that occur, and what is beyond does not matter. *)
Lemma layout_total {Sc : Type} `{Canvas Sc} (ms : Q) (root parent : Idx)
    (st : LState Sc) :
  let U := parent :: all_children (nodes st) in
  forall k : nat,
    exists st', layout (2 * List.length U + 1 + k) ms root parent st = Ok st'.
Proof.
  intros U k.
  apply (layout_total_aux (nodes st) U); try reflexivity.
  - intros c Hc. now right.
  - now left.
  - pose proof (fresh_length U (visited st)). lia.
Qed.

(** C8.  [layout] never hands the not-connected [ValueError] of
    [get_direction_to_child] to its caller; a yielded node for which the
    lookup fails is skipped and the loop goes on with the next one; and with
    stack depth to spare the call returns, whatever edges are absent. *)
Theorem C8_not_connected_is_skipped {Sc : Type} `{Canvas Sc} :
  (forall depth ms root parent (st : LState Sc),
      is_ValueError (layout depth ms root parent st) = false) /\
  (forall rec depth parent node rest conns (st : LState Sc),
      is_ValueError (get_direction_to_child (nodes st) parent node) = true ->
      layout_scan rec depth parent (node :: rest) conns st
      = layout_scan rec depth parent rest conns st) /\
  (forall ms root parent (st : LState Sc) (k : nat),
      exists st',
        layout (2 * List.length (parent :: all_children (nodes st)) + 1 + k)
               ms root parent st = Ok st').
Proof.
  split; [ | split ].
  - intros depth ms root parent st.
    destruct (layout depth ms root parent st) as [st' | err] eqn:Hl; [ reflexivity | ].
    apply layout_raises in Hl. now subst err.
  - intros rec depth parent node rest conns st Hv. cbn [layout_scan].
    destruct (get_direction_to_child (nodes st) parent node) as [d | [msg | key | ]];
      cbn in Hv; try discriminate. reflexivity.
  - intros ms root parent st k. apply layout_total.
Qed.

Lemma C8_not_connected_witness :
  is_ValueError (get_direction_to_child abc_tree "A" "C") = true /\
  (forall rec : Idx -> LState QtScene -> result (LState QtScene),
      layout_scan rec 9 "A" ["C"; "B"; "A"]%string []
                  (mkL abc_tree (new_scene abc_shapes) ["A"%string])
      = layout_scan rec 9 "A" ["B"; "A"]%string []
                    (mkL abc_tree (new_scene abc_shapes) ["A"%string])).
Proof.
  split; [ reflexivity | ].
  intros rec.
  apply (proj1 (proj2 C8_not_connected_is_skipped)). reflexivity.
Defined.

(* ================================================================== *)
(** * Properties of the tree builder *)
(* ================================================================== *)

Lemma update_node_keys (st : store) (i : Idx) (f : DiagramNode -> DiagramNode) :
  map fst (update_node st i f) = map fst st.
Proof.
  induction st as [ | [k nd] rest IH ]; cbn; [ reflexivity | ].
  destruct (String.eqb k i); cbn; [ reflexivity | now rewrite IH ].
Qed.

Lemma find_node_In (st : store) (i : Idx) :
  In i (map fst st) <-> find_node st i <> None.
Proof.
  induction st as [ | [k nd] rest IH ]; cbn; [ tauto | ].
  destruct (String.eqb_spec k i) as [-> | Hne].
  - split; [ discriminate | auto ].
  - rewrite <- IH. split; [ intros [Heq | Hin]; [ contradiction | exact Hin ] | auto ].
Qed.

Lemma positioned_update (st : store) (i j : Idx) (f : DiagramNode -> DiagramNode) :
  (forall nd, positioned (f nd) = positioned nd) ->
  positioned_of (update_node st i f) j = positioned_of st j.
Proof.
  intros Hf. unfold positioned_of. destruct (String.eqb_spec i j) as [-> | Hne].
  - rewrite find_update_same. destruct (find_node st j); cbn; auto.
  - now rewrite find_update_other.
Qed.

Lemma link_node_unpositioned (node : Idx) (conns : list (Direction * Idx)) :
  forall st st', link_node st node conns = Ok st' ->
    forall i, positioned_of st' i = positioned_of st i.
Proof.
  induction conns as [ | [d c] rest IH ]; intros st st' Hl i; cbn in Hl.
  - now inversion Hl.
  - destruct (find_node st c); [ | discriminate ].
    rewrite (IH _ _ Hl). unfold set_parent, add_connection.
    rewrite !positioned_update; reflexivity.
Qed.

Lemma link_nodes_unpositioned (connections : list (Idx * list (Direction * Idx)))
    (ids : list Idx) :
  forall st st', link_nodes st ids connections = Ok st' ->
    forall i, positioned_of st' i = positioned_of st i.
Proof.
  induction ids as [ | k rest IH ]; intros st st' Hl i; cbn in Hl.
  - now inversion Hl.
  - inv_bind Hl. rewrite (IH _ _ Hl). eapply link_node_unpositioned; eauto.
Qed.

Lemma new_nodes_unpositioned {Shape : Type} (shapes : list (Idx * Shape)) (i : Idx) :
  positioned_of (new_nodes shapes) i = false.
Proof.
  unfold positioned_of, new_nodes.
  induction shapes as [ | [k sh] rest IH ]; cbn; [ reflexivity | ].
  destruct (String.eqb k i); [ reflexivity | exact IH ].
Qed.

(** The nodes of a new tree are not positioned. *)
Lemma build_tree_unpositioned {Shape : Type} (shapes : list (Idx * Shape))
    (connections : list (Idx * list (Direction * Idx))) (nds : store) (root : Idx) :
  build_tree shapes connections = Ok (nds, root) ->
  forall i, positioned_of nds i = false.
Proof.
  unfold build_tree. intros Hb i. inv_bind Hb.
  destruct (roots r) as [ | r0 [ | r1 l ] ]; try discriminate.
  inversion Hb; subst.
  rewrite (link_nodes_unpositioned _ _ _ _ Hr). apply new_nodes_unpositioned.
Qed.

(** C3, as the code has it.  After a top-level [layout] call that returns,
    on the root of a tree built by [build_tree], the list of the omitted
    argument [visited] holding no node of that tree: every node reachable
    from the root that has a child has [positioned = True], and every node
    without children still has [positioned = False]. *)
Theorem C3_parents_positioned {Sc : Type} `{Canvas Sc} {Shape : Type}
    (shapes : list (Idx * Shape)) (connections : list (Idx * list (Direction * Idx)))
    (nds : store) (root : Idx) (depth : nat) (default_visited : list Idx)
    (sc : Sc) (st' : LState Sc) :
  build_tree shapes connections = Ok (nds, root) ->
  (forall v, In v default_visited -> ~ In v (map fst nds)) ->
  layout_default depth root root default_visited nds sc = Ok st' ->
  forall i,
    (reachable nds root i -> get_nodes nds i <> [] ->
     positioned_of (nodes st') i = true) /\
    (get_nodes nds i = [] -> positioned_of (nodes st') i = false).
Proof.
  intros Hbuild Hfresh Hlayout i. unfold layout_default in Hlayout.
  destruct (layout_facts nds _ _ _ _ _ _ Hlayout eq_refl)
    as ((Hs & Hv & Hm & Hleaf & Hinv) & Hroot).
  split.
  - intros Hreach Hch.
    assert (Hinv' : layout_inv nds [] st').
    { apply Hinv. intros v Hv0 _ Hc. cbn in Hv0. exfalso.
      apply (Hfresh v Hv0). apply find_node_In. now apply get_nodes_find. }
    assert (Hclosed : forall p q, reachable nds p q ->
              (get_nodes nds p <> [] -> In p (visited st')) ->
              get_nodes nds q <> [] -> In q (visited st')).
    { induction 1 as [ p | p c q Hc _ IH ]; [ auto | ].
      intros Hp Hq. apply IH; [ | exact Hq ].
      intros Hcc.
      assert (Hpc : get_nodes nds p <> []) by (intros He; rewrite He in Hc; destruct Hc).
      destruct (Hinv' p (Hp Hpc) (fun f => f) Hpc) as [_ Hcl]. auto. }
    apply (Hinv' i); auto.
    apply (Hclosed _ _ Hreach); auto.
  - intros He. rewrite (Hleaf i He). cbn.
    eapply build_tree_unpositioned; eauto.
Qed.

Lemma C3_parents_positioned_witness :
  exists st' : LState QtScene,
    layout_default 10 "A" "A" [] abc_tree (new_scene abc_shapes) = Ok st' /\
    positioned_of (nodes st') "B" = true /\
    positioned_of (nodes st') "C" = false.
Proof.
  destruct (layout_default 10 "A" "A" [] abc_tree (new_scene abc_shapes))
    as [st' | err] eqn:Hl; [ | vm_compute in Hl; discriminate ].
  exists st'. split; [ reflexivity | ].
  pose proof (C3_parents_positioned abc_shapes abc_connections abc_tree "A" 10 []
                (new_scene abc_shapes) st' eq_refl (fun v (f : In v []) => match f with end) Hl)
    as Hall.
  split.
  - apply (proj1 (Hall "B"%string)).
    + eapply reach_step; [ | apply reach_refl ]. cbn. now left.
    + cbn. discriminate.
  - apply (proj2 (Hall "C"%string)). reflexivity.
Defined.

(* ================================================================== *)
(** * The walk on a graph with sharing *)
(* ================================================================== *)

Lemma diamond_rank_decreases (p c : Idx) :
  In c (get_nodes diamond p) -> (diamond_rank c < diamond_rank p)%nat.
Proof.
  unfold get_nodes, connections_of, diamond. cbn [find_node].
  repeat match goal with
         | |- context [String.eqb ?k p] =>
             destruct (String.eqb_spec k p) as [<- | ?]
         end; cbn; intuition (subst; cbn; lia).
Qed.

Lemma C10_walk_witness :
  exists out,
    walk_depth_first 5 diamond "a" = Ok (out ++ ["a"%string]) /\
    NoDup (out ++ ["a"%string]) /\
    (forall m, In m (out ++ ["a"%string]) <-> reachable diamond "a" m).
Proof.
  apply (C10_walk_yields_reachable_once diamond diamond_rank diamond_rank_decreases
           "a"%string 5%nat).
  cbn. lia.
Defined.

Example diamond_walk :
  walk_depth_first 5 diamond "a" = Ok ["d"; "b"; "c"; "a"]%string.
Proof. reflexivity. Qed.

(* ================================================================== *)
(** * The tree builder applies the declared triples *)
(* ================================================================== *)



Lemma parent_of_update_same (st : store) (c p : Idx) :
  find_node st c <> None -> parent_of (set_parent st c p) c = Some p.
Proof.
  intros Hf. unfold parent_of, set_parent. rewrite find_update_same.
  destruct (find_node st c); [ reflexivity | congruence ].
Qed.

Lemma parent_of_update (st : store) (i j : Idx) (f : DiagramNode -> DiagramNode) :
  (forall nd, parent (f nd) = parent nd) ->
  parent_of (update_node st i f) j = parent_of st j.
Proof.
  intros Hf. unfold parent_of. destruct (String.eqb_spec i j) as [-> | Hne].
  - rewrite find_update_same. destruct (find_node st j); cbn; auto.
  - now rewrite find_update_other.
Qed.

Lemma find_update_some (st : store) (i j : Idx) (f : DiagramNode -> DiagramNode) :
  find_node (update_node st i f) j <> None <-> find_node st j <> None.
Proof.
  rewrite <- !find_node_In. now rewrite update_node_keys.
Qed.




Lemma parent_of_set_parent_other (st : store) (c p i : Idx) :
  c <> i -> parent_of (set_parent st c p) i = parent_of st i.
Proof.
  intros Hne. unfold parent_of, set_parent. now rewrite find_update_other.
Qed.

Lemma parent_of_add_connection (st : store) (p : Idx) (d : Direction) (c i : Idx) :
  parent_of (add_connection st p d c) i = parent_of st i.
Proof. unfold add_connection. now apply parent_of_update. Qed.




Lemma new_nodes_keys {Shape : Type} (shapes : list (Idx * Shape)) :
  map fst (new_nodes shapes) = map fst shapes.
Proof.
  unfold new_nodes. induction shapes as [ | [k sh] rest IH ]; cbn; [ reflexivity | ].
  now rewrite IH.
Qed.

Lemma new_nodes_parent {Shape : Type} (shapes : list (Idx * Shape)) (i : Idx) :
  parent_of (new_nodes shapes) i = None.
Proof.
  unfold parent_of, new_nodes.
  induction shapes as [ | [k sh] rest IH ]; cbn; [ reflexivity | ].
  destruct (String.eqb k i); [ reflexivity | exact IH ].
Qed.








(** Two parent-less ids, and none (a cycle): the [ValueError]. *)
Example build_tree_forest :
  build_tree [("a"%string, tt); ("b"%string, tt)] []
    = Raise (ValueError "Not only one root?").
Proof. reflexivity. Qed.

Example build_tree_cycle :
  build_tree [("a"%string, tt); ("b"%string, tt)]
             [("a"%string, [(d_e, "b"%string)]); ("b"%string, [(d_w, "a"%string)])]
    = Raise (ValueError "Not only one root?").
Proof. reflexivity. Qed.

(* ================================================================== *)
(** * Properties of the connector renderer *)
(* ================================================================== *)

Lemma Direction_eqb_eq (a b : Direction) : Direction_eqb a b = true <-> a = b.
Proof. destruct a, b; cbn; split; congruence. Qed.




Section Connectors.
Context {Sc : Type} `{Canvas Sc}.





End Connectors.


(* ================================================================== *)
(** * Clearance and the two modes of the position calculator *)
(* ================================================================== *)


Lemma calculate_position_parent (P N : BoundingRect) (d : Direction) (ms : Q) :
  let inv := _INVERT_DIRECTION d in
  calculate_position P N d ms true
  = (br_x N + ptn_dx P N inv (inflate_x N inv) ms,
     br_y N + ptn_dy P N inv (inflate_y N inv) ms).
Proof. destruct d; reflexivity. Qed.

Lemma inflate_x_nonneg (N : BoundingRect) (inv : Direction) :
  br_w N <= br_g_w N -> 0 <= inflate_x N inv.
Proof.
  intros Hw. unfold inflate_x, Qneq_bool.
  destruct (goes_east inv), (goes_west inv), (Qeq_bool (br_x N) 0); cbn; lra.
Qed.

Lemma inflate_y_nonneg (N : BoundingRect) (inv : Direction) :
  br_h N <= br_g_h N -> 0 <= inflate_y N inv.
Proof.
  intros Hh. unfold inflate_y, Qneq_bool.
  destruct (goes_north inv), (goes_south inv), (Qeq_bool (br_y N) 0),
    (Qeq_bool (br_y N) (br_g_y N)); cbn; lra.
Qed.



(** In the mode [parent_to_node = True], for every direction, when the
    node's group is at least as large as its shape, the parent's box at the
    computed position is at least [min_spacing] away from the node's shape
    box along an axis. *)
Theorem parent_placement_clear (P N : BoundingRect) (d : Direction) (ms : Q) :
  br_w N <= br_g_w N -> br_h N <= br_g_h N ->
  clear_by ms (shape_box N) (box_at P (calculate_position P N d ms true)).
Proof.
  intros Hw Hh. rewrite calculate_position_parent. cbv zeta.
  pose proof (inflate_x_nonneg N (_INVERT_DIRECTION d) Hw) as Hx.
  pose proof (inflate_y_nonneg N (_INVERT_DIRECTION d) Hh) as Hy.
  revert Hx Hy.
  generalize (inflate_x N (_INVERT_DIRECTION d)) as sx.
  generalize (inflate_y N (_INVERT_DIRECTION d)) as sy.
  intros sy sx Hx Hy.
  unfold clear_by, shape_box, box_at, r_right, r_bottom, ptn_dx, ptn_dy.
  cbn [fst snd r_x r_y r_w r_h].
  destruct d; cbn [_INVERT_DIRECTION goes_east goes_west goes_north goes_south];
    first [ left; lra | right; left; lra | right; right; left; lra
          | right; right; right; lra ].
Qed.

Lemma parent_placement_clear_witness :
  clear_by 30 (shape_box (mkBR (-5) (-40) 30 10 (-5) (-40) 30 60))
           (box_at (mkBR 0 0 40 20 0 0 0 0)
              (calculate_position (mkBR 0 0 40 20 0 0 0 0)
                 (mkBR (-5) (-40) 30 10 (-5) (-40) 30 60) d_e 30 true)).
Proof. apply parent_placement_clear; vm_compute; discriminate. Defined.



(* ================================================================== *)
(** * The walk on arbitrary graphs *)
(* ================================================================== *)

Lemma walk_nodes_reach (st : store)
    (rec : Idx -> list Idx -> result (list Idx * list Idx)) :
  (forall i V res, rec i V = Ok res -> walk_post i V res /\ walk_reach st [i] res) ->
  forall ns V out V',
    walk_nodes rec ns V = Ok (out, V') -> walk_reach st ns (out, V').
Proof.
  intros Hrec. induction ns as [ | node rest IH ]; intros V out V' Hw; cbn in Hw.
  - inversion Hw; subst. split; intros m [].
  - destruct (mem node V) eqn:Hmem.
    + destruct (IH _ _ _ Hw) as [Hr Hc]. split; [ | exact Hc ].
      intros m Hm. destruct (Hr m Hm) as (c & Hin & Hreach).
      exists c. split; [ now right | exact Hreach ].
    + inv_bind Hw. destruct r as [out1 V1].
      inv_bind Hw. destruct r as [out2 V2]. inversion Hw; subst.
      destruct (Hrec _ _ _ Hr) as [_ [Hr1 Hc1]].
      destruct (IH _ _ _ Hr0) as [Hr2 Hc2].
      assert (Hpost : forall i V res, rec i V = Ok res -> walk_post i V res)
        by (intros i V0 res Hres; apply (Hrec i V0 res Hres)).
      destruct (walk_nodes_post rec Hpost _ _ _ _ Hr0) as [Hv2 _].
      cbn [fst snd] in *. split.
      * intros m Hm. apply in_app_iff in Hm. destruct Hm as [Hm | Hm].
        -- destruct (Hr1 m Hm) as (c & [Heq | []] & Hreach). subst c.
           exists node. split; [ now left | exact Hreach ].
        -- destruct (Hr2 m Hm) as (c & Hin & Hreach).
           exists c. split; [ now right | exact Hreach ].
      * intros m Hm c Hc. apply in_app_iff in Hm. destruct Hm as [Hm | Hm].
        -- apply Hv2. left. now apply (Hc1 m).
        -- now apply (Hc2 m).
Qed.

Lemma walk_reach_holds (st : store) (depth : nat) :
  forall self V res, walk depth st self V = Ok res -> walk_reach st [self] res.
Proof.
  induction depth as [ | depth IH ]; intros self V res Hw; cbn in Hw;
    [ discriminate | ].
  inv_bind Hw. destruct r as [out V1]. inversion Hw; subst. clear Hw.
  assert (Hrec : forall i V0 res, walk depth st i V0 = Ok res ->
                   walk_post i V0 res /\ walk_reach st [i] res).
  { intros i V0 res Hres. split; [ eapply walk_post_holds; eauto | eauto ]. }
  destruct (walk_nodes_reach st _ Hrec _ _ _ _ Hr) as [Hr1 Hc1].
  destruct (walk_nodes_post _ (walk_post_holds depth st) _ _ _ _ Hr) as [_ Hch].
  cbn [fst snd] in *. split.
  - intros m Hm. exists self. split; [ now left | ].
    apply in_app_iff in Hm. destruct Hm as [Hm | [<- | []]]; [ | constructor ].
    destruct (Hr1 m Hm) as (c & Hin & Hreach). econstructor; eauto.
  - intros m Hm c Hc. apply in_or_app. left.
    apply in_app_iff in Hm. destruct Hm as [Hm | [<- | []]].
    + now apply (Hc1 m).
    + now apply Hch.
Qed.

(** On any graph, cycles included, a walk with a stack deeper than the
    number of child ids returns; what it yields are the nodes reachable from
    the start, and the start comes last. *)
Theorem walk_yields_reachable (st : store) (start : Idx) (depth : nat) :
  (List.length (all_children st) < depth)%nat ->
  exists out,
    walk_depth_first depth st start = Ok (out ++ [start]) /\
    (forall m, In m (out ++ [start]) <-> reachable st start m).
Proof.
  intros Hlt. unfold walk_depth_first.
  destruct (walk_total st (all_children st) (fun c Hc => Hc) depth start [])
    as (o & V' & Hw & _).
  { pose proof (fresh_length (all_children st) []). lia. }
  rewrite Hw. cbn [bind].
  destruct (walk_reach_holds st depth _ _ _ Hw) as [Hreach Hclosed].
  destruct (walk_post_holds depth st _ _ _ Hw) as [Hv _].
  cbn [fst snd] in *.
  destruct depth as [ | depth ]; cbn in Hw; [ discriminate | ].
  inv_bind Hw. destruct r as [out V1]. inversion Hw; subst. clear Hw.
  exists out. split; [ reflexivity | ]. intros m. split.
  - intros Hm. destruct (Hreach m Hm) as (c & [Heq | []] & Hr0).
    subst c. exact Hr0.
  - assert (Hcl : forall p q, reachable st p q ->
              In p (out ++ [start]) -> In q (out ++ [start])).
    { induction 1 as [ p | p c q Hc _ IH ]; [ auto | ].
      intros Hp. apply IH. specialize (Hclosed p Hp c Hc).
      apply Hv in Hclosed. destruct Hclosed as [[] | Hin]. exact Hin. }
    intros Hr0. apply (Hcl _ _ Hr0). apply in_or_app. right. now left.
Qed.

Lemma walk_yields_reachable_witness :
  exists out,
    walk_depth_first 4 cyclic "a" = Ok (out ++ ["a"%string]) /\
    (forall m, In m (out ++ ["a"%string]) <-> reachable cyclic "a" m).
Proof. apply (walk_yields_reachable cyclic "a"%string 4). cbn. lia. Defined.

(** The test [len(list(node.walk_depth_first())) > 1] of [layout] and
    [connect_widgets] holds exactly for the nodes that have a child. *)
Theorem walk_long_iff_children (depth : nat) (st : store) (self : Idx)
    (out : list Idx) :
  walk_depth_first depth st self = Ok out ->
  ((1 <? List.length out)%nat = true <-> get_nodes st self <> []).
Proof.
  intros Hw. split.
  - intros Hlen He. rewrite (walk_of_leaf _ _ _ _ Hw He) in Hlen. discriminate.
  - intros Hne. apply Nat.ltb_lt. eapply walk_of_parent_long; eauto.
Qed.

Lemma walk_long_iff_children_witness :
  ((1 <? List.length ["b"; "c"; "b"]%string)%nat = true
   <-> get_nodes cyclic "b" <> []).
Proof. apply (walk_long_iff_children 4 cyclic "b"%string). reflexivity. Defined.

(* ================================================================== *)
(** * The direction lookup *)
(* ================================================================== *)

(** [get_direction_to_child] answers for the nodes of [get_nodes] and for
    no other: a listed node gets the first direction whose list holds it, an
    unlisted one the [ValueError]. *)
Theorem direction_lookup_first_match (st : store) (self node : Idx) :
  (In node (get_nodes st self) ->
   exists d ns before after,
     get_direction_to_child st self node = Ok d /\
     connections_of st self = before ++ (d, ns) :: after /\
     In node ns /\
     (forall d' ns', In (d', ns') before -> ~ In node ns')) /\
  (~ In node (get_nodes st self) ->
   get_direction_to_child st self node = Raise (ValueError "not connected")).
Proof.
  unfold get_direction_to_child, get_nodes.
  generalize (connections_of st self) as conns.
  induction conns as [ | [k ns] rest [IHin IHout] ]; cbn [direction_to_child flat_map].
  - split; [ intros [] | reflexivity ].
  - destruct (mem node ns) eqn:Hmem.
    + split.
      * intros _. exists k, ns, [], rest. split; [ reflexivity | ].
        split; [ reflexivity | ]. split; [ now apply mem_In | intros d' ns' [] ].
      * intros Hn. exfalso. apply Hn. apply in_or_app. left. now apply mem_In.
    + apply mem_not_In in Hmem. split.
      * intros Hin. apply in_app_iff in Hin.
        destruct Hin as [Hin | Hin]; [ contradiction | ].
        destruct (IHin Hin) as (d & ns0 & before & after & Hd & Heq & Hns & Hb).
        exists d, ns0, ((k, ns) :: before), after.
        split; [ exact Hd | ]. split; [ cbn; now rewrite Heq | ].
        split; [ exact Hns | ].
        intros d' ns' [Heq' | Hin']; [ inversion Heq'; now subst | eauto ].
      * intros Hn. apply IHout. intros Hin. apply Hn. apply in_or_app. now right.
Qed.

Lemma direction_lookup_witness :
  exists d ns before after,
    get_direction_to_child diamond "a" "b" = Ok d /\
    connections_of diamond "a" = before ++ (d, ns) :: after /\
    In "b"%string ns /\
    (forall d' ns', In (d', ns') before -> ~ In "b"%string ns').
Proof.
  apply (proj1 (direction_lookup_first_match diamond "a"%string "b"%string)).
  cbn. now left.
Defined.

(* ================================================================== *)
(** * What the tree builder leaves in the nodes *)
(* ================================================================== *)

Lemma parent_of_link_step (st : store) (q : Idx) (d : Direction) (c i : Idx) :
  find_node st c <> None ->
  parent_of (set_parent (add_connection st q d c) c q) i
  = if String.eqb c i then Some q else parent_of st i.
Proof.
  intros Hc. destruct (String.eqb_spec c i) as [<- | Hne].
  - apply parent_of_update_same. unfold add_connection. now apply find_update_some.
  - rewrite parent_of_set_parent_other by exact Hne. apply parent_of_add_connection.
Qed.

Lemma link_node_parent (q : Idx) (conns : list (Direction * Idx)) :
  forall st st', link_node st q conns = Ok st' ->
    forall i, parent_of st' i
              = last_parent (map (fun '(d, c) => (q, d, c)) conns) i (parent_of st i).
Proof.
  unfold last_parent.
  induction conns as [ | [d c] rest IH ]; intros st st' Hl i; cbn in Hl.
  - now inversion Hl.
  - destruct (find_node st c) as [nd | ] eqn:Hf; [ | discriminate ].
    rewrite (IH _ _ Hl i). cbn [map fold_left]. f_equal.
    apply parent_of_link_step. congruence.
Qed.

Lemma link_nodes_parent (connections : list (Idx * list (Direction * Idx)))
    (ids : list Idx) :
  forall st st', link_nodes st ids connections = Ok st' ->
    forall i, parent_of st' i = last_parent (triples ids connections) i (parent_of st i).
Proof.
  unfold last_parent, triples.
  induction ids as [ | p rest IH ]; intros st st' Hl i; cbn in Hl.
  - now inversion Hl.
  - inv_bind Hl. rewrite (IH _ _ Hl i). cbn [flat_map].
    rewrite fold_left_app. f_equal.
    apply (link_node_parent p _ _ _ Hr i).
Qed.

(** The parent reference of a node is written by every triple that names
    the node as child: a tree that [build_tree] returns holds, in each node,
    the parent id of the last such triple, and no parent in a node that no
    triple names. *)
Theorem build_tree_parent_last_writer {Shape : Type} (shapes : list (Idx * Shape))
    (connections : list (Idx * list (Direction * Idx))) (nds : store) (root : Idx) :
  build_tree shapes connections = Ok (nds, root) ->
  forall i, parent_of nds i
            = last_parent (triples (map fst shapes) connections) i None.
Proof.
  unfold build_tree. intros Hb i. inv_bind Hb.
  destruct (roots r) as [ | r0 [ | r1 l ] ]; try discriminate.
  inversion Hb; subst. clear Hb.
  rewrite (link_nodes_parent _ _ _ _ Hr i).
  now rewrite new_nodes_keys, new_nodes_parent.
Qed.

Lemma build_tree_parent_witness :
  exists nds root,
    build_tree [("a", tt); ("b", tt); ("c", tt); ("d", tt)]%string
               [("a", [(d_e, "b"); (d_s, "c")]); ("b", [(d_e, "d")]);
                ("c", [(d_e, "d")])]%string = Ok (nds, root) /\
    parent_of nds "d" = Some "c"%string.
Proof.
  destruct (build_tree [("a", tt); ("b", tt); ("c", tt); ("d", tt)]%string
              [("a", [(d_e, "b"); (d_s, "c")]); ("b", [(d_e, "d")]);
               ("c", [(d_e, "d")])]%string) as [[nds root] | err] eqn:Hb;
    [ | vm_compute in Hb; discriminate ].
  exists nds, root. split; [ reflexivity | ].
  rewrite (build_tree_parent_last_writer _ _ _ _ Hb "d"%string). reflexivity.
Defined.

Lemma conns_of_In (connections : list (Idx * list (Direction * Idx))) (p : Idx)
    (d : Direction) (c : Idx) :
  In (d, c) (conns_of connections p) <->
  exists conns, dict_get connections p = Some conns /\ In (d, c) conns.
Proof.
  unfold conns_of. destruct (dict_get connections p) as [conns | ].
  - split; [ eauto | intros (conns' & Heq & Hin); now inversion Heq; subst ].
  - split; [ intros [] | intros (conns' & Heq & _); discriminate ].
Qed.

Lemma link_node_cases (q : Idx) (conns : list (Direction * Idx)) :
  forall st,
    match link_node st q conns with
    | Ok st' => map fst st' = map fst st /\
                (forall d c, In (d, c) conns -> In c (map fst st))
    | Raise err => exists d c, err = KeyError c /\ In (d, c) conns /\
                               ~ In c (map fst st)
    end.
Proof.
  induction conns as [ | [d c] rest IH ]; intros st; cbn [link_node].
  - split; [ reflexivity | intros d c [] ].
  - destruct (find_node st c) as [nd | ] eqn:Hf.
    + specialize (IH (set_parent (add_connection st q d c) c q)).
      assert (Hk : map fst (set_parent (add_connection st q d c) c q) = map fst st).
      { unfold set_parent, add_connection. now rewrite !update_node_keys. }
      rewrite Hk in IH.
      destruct (link_node (set_parent (add_connection st q d c) c q) q rest)
        as [st' | err].
      * destruct IH as [Hk' Hall]. split; [ exact Hk' | ].
        intros d0 c0 [Heq | Hin]; [ | eauto ].
        inversion Heq; subst. apply find_node_In. congruence.
      * destruct IH as (d0 & c0 & He & Hin & Hn).
        exists d0, c0. split; [ exact He | ]. split; [ now right | exact Hn ].
    + exists d, c. split; [ reflexivity | ]. split; [ now left | ].
      intros Hin. apply find_node_In in Hin. congruence.
Qed.

Lemma link_nodes_cases (connections : list (Idx * list (Direction * Idx)))
    (ids : list Idx) :
  forall st,
    match link_nodes st ids connections with
    | Ok st' => map fst st' = map fst st /\
                (forall p d c, In p ids -> In (d, c) (conns_of connections p) ->
                               In c (map fst st))
    | Raise err => exists p d c, err = KeyError c /\ In p ids /\
                                 In (d, c) (conns_of connections p) /\
                                 ~ In c (map fst st)
    end.
Proof.
  induction ids as [ | p rest IH ]; intros st; cbn [link_nodes].
  - split; [ reflexivity | intros p d c [] ].
  - pose proof (link_node_cases p (conns_of connections p) st) as Hnode.
    destruct (link_node st p (conns_of connections p)) as [st1 | err]; cbn [bind].
    + destruct Hnode as [Hk1 Hall1]. specialize (IH st1). rewrite Hk1 in IH.
      destruct (link_nodes st1 rest connections) as [st2 | err].
      * destruct IH as [Hk2 Hall2]. split; [ exact Hk2 | ].
        intros p0 d c [<- | Hin] Hc; eauto.
      * destruct IH as (p0 & d & c & He & Hin & Hc & Hn).
        exists p0, d, c. split; [ exact He | ]. split; [ now right | auto ].
    + destruct Hnode as (d & c & He & Hin & Hn).
      exists p, d, c. split; [ exact He | ]. split; [ now left | auto ].
Qed.

(** [build_tree] raises a [KeyError] exactly when a declared id names a
    child that is not declared, and the key of the error is such a child;
    for a declaration whose children are all declared it raises nothing but
    the [ValueError] on the root count. *)
Theorem build_tree_key_error {Shape : Type} (shapes : list (Idx * Shape))
    (connections : list (Idx * list (Direction * Idx))) :
  match build_tree shapes connections with
  | Raise (KeyError c) =>
      ~ In c (map fst shapes) /\
      exists p d, In p (map fst shapes) /\ In (d, c) (conns_of connections p)
  | Raise (ValueError _) | Ok _ => children_declared shapes connections
  | Raise RecursionError => False
  end.
Proof.
  unfold build_tree.
  pose proof (link_nodes_cases connections (map fst (new_nodes shapes))
                (new_nodes shapes)) as Hcases.
  cbv zeta. rewrite new_nodes_keys in *.
  destruct (link_nodes (new_nodes shapes) (map fst shapes) connections)
    as [nds | err]; cbn [bind].
  - destruct Hcases as [_ Hall].
    assert (Hdecl : children_declared shapes connections).
    { intros p conns d c Hp Hg Hin. apply (Hall p d c Hp).
      apply conns_of_In. eauto. }
    destruct (roots nds) as [ | r0 [ | r1 l ] ]; exact Hdecl.
  - destruct Hcases as (p & d & c & -> & Hp & Hc & Hn). split; eauto.
Qed.

Lemma connections_of_set_parent (st : store) (c q p : Idx) :
  connections_of (set_parent st c q) p = connections_of st p.
Proof.
  rewrite !connections_of_skeleton. unfold set_parent.
  now rewrite skeleton_update_node.
Qed.

Lemma connections_of_add (st : store) (q : Idx) (d : Direction) (c p : Idx) :
  find_node st q <> None ->
  connections_of (add_connection st q d c) p
  = if String.eqb q p then dict_append (connections_of st p) d c
    else connections_of st p.
Proof.
  intros Hq. unfold connections_of, add_connection.
  destruct (String.eqb_spec q p) as [<- | Hne].
  - rewrite find_update_same. destruct (find_node st q); [ reflexivity | congruence ].
  - now rewrite find_update_other.
Qed.

Lemma link_node_connections (q : Idx) (conns : list (Direction * Idx)) :
  forall st st', link_node st q conns = Ok st' -> find_node st q <> None ->
    forall p, connections_of st' p
              = if String.eqb q p then append_all conns (connections_of st p)
                else connections_of st p.
Proof.
  unfold append_all.
  induction conns as [ | [d c] rest IH ]; intros st st' Hl Hq p; cbn in Hl.
  - inversion Hl; subst. cbn. now destruct (String.eqb q p).
  - destruct (find_node st c) as [nd | ] eqn:Hf; [ | discriminate ].
    rewrite (IH _ _ Hl).
    + rewrite connections_of_set_parent, connections_of_add by exact Hq.
      cbn [fold_left]. now destruct (String.eqb q p).
    + unfold set_parent, add_connection. now rewrite !find_update_some.
Qed.

Lemma link_nodes_connections (connections : list (Idx * list (Direction * Idx)))
    (ids : list Idx) :
  forall st st', link_nodes st ids connections = Ok st' ->
    NoDup ids -> (forall q, In q ids -> In q (map fst st)) ->
    forall p, connections_of st' p
              = if mem p ids
                then append_all (conns_of connections p) (connections_of st p)
                else connections_of st p.
Proof.
  induction ids as [ | q rest IH ]; intros st st' Hl Hnd Hin p; cbn in Hl.
  - now inversion Hl.
  - inv_bind Hl. rename r into st1. inversion Hnd as [ | ? ? Hq Hrest ]; subst.
    assert (Hk : map fst st1 = map fst st).
    { pose proof (link_node_cases q (conns_of connections q) st) as Hc.
      rewrite Hr in Hc. apply Hc. }
    rewrite (IH _ _ Hl Hrest) by (intros q0 Hq0; rewrite Hk; apply Hin; now right).
    rewrite (link_node_connections _ _ _ _ Hr)
      by (apply find_node_In, Hin; now left).
    cbn [mem existsb]. fold (mem p rest).
    destruct (String.eqb_spec p q) as [-> | Hne].
    + rewrite String.eqb_refl. cbn.
      destruct (mem q rest) eqn:Hm; [ | reflexivity ].
      apply mem_In in Hm. contradiction.
    + destruct (String.eqb_spec q p) as [-> | _]; [ congruence | ]. reflexivity.
Qed.

Lemma dict_append_new (acc : list (Direction * list Idx)) (d : Direction) (c : Idx) :
  ~ In d (map fst acc) -> dict_append acc d c = acc ++ [(d, [c])].
Proof.
  induction acc as [ | [k ns] rest IH ]; intros Hn; cbn; [ reflexivity | ].
  destruct (Direction_eqb k d) eqn:E.
  - apply Direction_eqb_eq in E. subst k. exfalso. apply Hn. now left.
  - rewrite IH; [ reflexivity | ]. intros Hin. apply Hn. now right.
Qed.

Lemma append_all_distinct (conns : list (Direction * Idx)) :
  forall acc,
    NoDup (map fst conns) ->
    (forall k, In k (map fst acc) -> ~ In k (map fst conns)) ->
    append_all conns acc = acc ++ map (fun '(d, c) => (d, [c])) conns.
Proof.
  unfold append_all.
  induction conns as [ | [d c] rest IH ]; intros acc Hnd Hdisj; cbn [fold_left map].
  - now rewrite app_nil_r.
  - inversion Hnd as [ | ? ? Hd Hrest ]; subst.
    rewrite dict_append_new by (intros Hin; apply (Hdisj d Hin); now left).
    rewrite IH; [ now rewrite <- app_assoc | exact Hrest | ].
    intros k Hk. rewrite map_app in Hk. apply in_app_iff in Hk.
    destruct Hk as [Hk | [<- | []]]; [ | exact Hd ].
    intros Hin. apply (Hdisj k Hk). now right.
Qed.

Lemma new_nodes_connections {Shape : Type} (shapes : list (Idx * Shape)) (i : Idx) :
  connections_of (new_nodes shapes) i = [].
Proof.
  unfold connections_of, new_nodes.
  induction shapes as [ | [k sh] rest IH ]; cbn; [ reflexivity | ].
  destruct (String.eqb k i); [ reflexivity | exact IH ].
Qed.

(** In a tree that [build_tree] returns, the [connections] of the node of a
    declared id are its declared pairs, one list of a single child per
    direction, in the order of the declaration. *)
Theorem build_tree_connections {Shape : Type} (shapes : list (Idx * Shape))
    (connections : list (Idx * list (Direction * Idx))) (nds : store) (root p : Idx) :
  NoDup (map fst shapes) ->
  build_tree shapes connections = Ok (nds, root) ->
  In p (map fst shapes) ->
  NoDup (map fst (conns_of connections p)) ->
  connections_of nds p = map (fun '(d, c) => (d, [c])) (conns_of connections p).
Proof.
  unfold build_tree. intros Hnd Hb Hp Hdir. inv_bind Hb.
  destruct (roots r) as [ | r0 [ | r1 l ] ]; try discriminate.
  inversion Hb; subst. clear Hb. rewrite new_nodes_keys in Hr.
  rewrite (link_nodes_connections _ _ _ _ Hr Hnd)
    by (intros q Hq; now rewrite new_nodes_keys).
  apply mem_In in Hp. rewrite Hp, new_nodes_connections.
  rewrite append_all_distinct; [ reflexivity | exact Hdir | intros k [] ].
Qed.

Lemma build_tree_connections_witness :
  exists nds root,
    build_tree abc_shapes abc_connections = Ok (nds, root) /\
    connections_of nds "A" = [(d_e, ["B"%string])].
Proof.
  destruct (build_tree abc_shapes abc_connections) as [[nds root] | err] eqn:Hb;
    [ | vm_compute in Hb; discriminate ].
  exists nds, root. split; [ reflexivity | ].
  rewrite (build_tree_connections abc_shapes abc_connections nds root "A"%string).
  - reflexivity.
  - cbn. repeat constructor; cbn; intuition discriminate.
  - exact Hb.
  - cbn. now left.
  - cbn. repeat constructor. intros [].
Defined.

(* ================================================================== *)
(** * What the layout leaves alone *)
(* ================================================================== *)

Lemma node_links_set_positioned (st : store) (i : Idx) :
  node_links (set_positioned st i) = node_links st.
Proof.
  unfold node_links, set_positioned.
  induction st as [ | [k nd] rest IH ]; cbn; [ reflexivity | ].
  destruct (String.eqb k i); cbn; [ reflexivity | now rewrite IH ].
Qed.

Section LayoutFrame.
Context {Sc : Type} `{Canvas Sc}.

Lemma layout_place_all_links (ms : Q) (parent : Idx) (conns : list (Direction * Idx)) :
  forall st : LState Sc,
    node_links (nodes (layout_place_all ms parent conns st)) = node_links (nodes st).
Proof.
  unfold layout_place_all.
  induction conns as [ | [dir node] rest IH ]; intros st; cbn [fold_left];
    [ reflexivity | ].
  rewrite IH. destruct (layout_place_nodes ms parent st dir node) as [Hn _].
  rewrite Hn. destruct (positioned_of (nodes st) parent);
    [ reflexivity | apply node_links_set_positioned ].
Qed.

Lemma layout_scan_links (rec : Idx -> LState Sc -> result (LState Sc))
    (depth : nat) (parent : Idx) :
  (forall node st st', rec node st = Ok st' ->
     node_links (nodes st') = node_links (nodes st)) ->
  forall yielded conns st conns' st',
    layout_scan rec depth parent yielded conns st = Ok (conns', st') ->
    node_links (nodes st') = node_links (nodes st).
Proof.
  intros Hrec. induction yielded as [ | node rest IH ];
    intros conns st conns' st' Hscan; cbn [layout_scan] in Hscan.
  - now inversion Hscan.
  - destruct (get_direction_to_child (nodes st) parent node) as [dir | err].
    + inv_bind Hscan. inv_bind Hscan. rewrite (IH _ _ _ _ Hscan).
      destruct (1 <? List.length r)%nat; [ eauto | now inversion Hr0 ].
    + destruct err as [msg | key | ]; try discriminate. eauto.
Qed.

Lemma layout_links (depth : nat) (ms : Q) (root : Idx) :
  forall parent st st',
    layout depth ms root parent st = Ok st' ->
    node_links (nodes st') = node_links (nodes st).
Proof.
  induction depth as [ | depth IH ]; intros parent st st' Hl; cbn [layout] in Hl;
    [ discriminate | ].
  destruct (mem parent (visited st)); [ now inversion Hl | ].
  inv_bind Hl. inv_bind Hl. destruct r0 as [conns st1]. inversion Hl; subst.
  rewrite layout_place_all_links.
  now rewrite (layout_scan_links _ depth parent IH _ _ _ _ _ Hr0).
Qed.

(** A call of [layout] that returns has changed no id, no connection and no
    parent reference; it has reset no [positioned] flag and removed nothing
    from [visited], to which it has added the node it was called on. *)
Theorem layout_keeps_tree (depth : nat) (ms : Q) (root parent : Idx)
    (st st' : LState Sc) :
  layout depth ms root parent st = Ok st' ->
  node_links (nodes st') = node_links (nodes st) /\
  (forall i, positioned_of (nodes st) i = true ->
             positioned_of (nodes st') i = true) /\
  incl (visited st) (visited st') /\
  In parent (visited st').
Proof.
  intros Hl. split; [ eapply layout_links; eauto | ].
  destruct (layout_facts (nodes st) _ _ _ _ _ _ Hl eq_refl)
    as ((_ & Hv & Hm & _) & Hin).
  auto.
Qed.

(** The layout of a node without children that is not in [visited] adds
    the node to [visited] and does nothing else: no placement, no flag. *)
Theorem layout_of_leaf (depth : nat) (ms : Q) (root parent : Idx) (st : LState Sc) :
  get_nodes (nodes st) parent = [] ->
  ~ In parent (visited st) ->
  layout (S (S depth)) ms root parent st = Ok (add_visited st parent).
Proof.
  intros Hleaf Hnot. cbn [layout].
  apply mem_not_In in Hnot. rewrite Hnot.
  assert (Hw : walk_depth_first (S depth) (nodes (add_visited st parent)) parent
               = Ok [parent]).
  { unfold walk_depth_first. cbn [walk add_visited nodes].
    rewrite Hleaf. reflexivity. }
  rewrite Hw. cbn [bind layout_scan].
  assert (Hd : get_direction_to_child (nodes (add_visited st parent)) parent parent
               = Raise (ValueError "not connected")).
  { cbn [add_visited nodes]. unfold get_direction_to_child.
    destruct (direction_to_child (connections_of (nodes st) parent) parent)
      as [d | err] eqn:E.
    - apply direction_to_child_Ok in E. fold (get_nodes (nodes st) parent) in E.
      rewrite Hleaf in E. destruct E.
    - now rewrite (direction_to_child_Raise _ _ _ E). }
  rewrite Hd. reflexivity.
Qed.

End LayoutFrame.

Lemma layout_keeps_tree_witness :
  exists st' : LState QtScene,
    abc_layout = Ok st' /\ node_links (nodes st') = node_links abc_tree.
Proof.
  destruct abc_layout as [st' | err] eqn:Hl; [ | vm_compute in Hl; discriminate ].
  exists st'. split; [ reflexivity | ].
  apply (proj1 (layout_keeps_tree _ _ _ _ _ _ Hl)).
Defined.

Lemma layout_of_leaf_witness :
  layout 2 30 "C" "C" (mkL abc_tree (new_scene abc_shapes) [])
  = Ok (mkL abc_tree (new_scene abc_shapes) ["C"%string]).
Proof.
  apply (layout_of_leaf 0 30 "C"%string "C"%string
           (mkL abc_tree (new_scene abc_shapes) [])).
  - reflexivity.
  - intros [].
Defined.

(* ================================================================== *)
(** * The group disassembler follows the walk *)
(* ================================================================== *)

Lemma mem_same (V W : list Idx) (x : Idx) : same_nodes V W -> mem x V = mem x W.
Proof.
  intros Hs. destruct (mem x W) eqn:E.
  - apply mem_In, Hs. now apply mem_In.
  - apply mem_not_In. intros Hin. apply Hs in Hin. apply mem_In in Hin. congruence.
Qed.

Lemma same_nodes_app (V W : list Idx) (x : Idx) :
  same_nodes V W -> same_nodes (V ++ [x]) (W ++ [x]).
Proof.
  intros Hs y. rewrite !in_app_iff. now rewrite (Hs y).
Qed.

Section Disassembler.
Context {Sc : Type}.
Variable destroy : Sc -> Idx -> Sc.
Variable st : store.

Lemma remove_nodes_like_walk (depth : nat) :
  remove_like_walk destroy st depth ->
  forall ns sc V W, same_nodes V W ->
    match walk_nodes (walk depth st) ns V with
    | Ok (out, V') =>
        exists W', remove_nodes (remove_groups destroy depth st) ns (sc, W)
                   = Ok (fold_left destroy out sc, W') /\
                   same_nodes V' W' /\ incl W W'
    | Raise err =>
        remove_nodes (remove_groups destroy depth st) ns (sc, W) = Raise err
    end.
Proof.
  intros Hrec. induction ns as [ | node rest IH ]; intros sc V W Hs;
    cbn [walk_nodes remove_nodes].
  - exists W. split; [ reflexivity | ]. split; [ exact Hs | apply incl_refl ].
  - rewrite (mem_same V W node Hs). destruct (mem node W) eqn:Hmem.
    + now apply IH.
    + specialize (Hrec node sc (V ++ [node]) (W ++ [node]) (same_nodes_app _ _ _ Hs)).
      destruct (walk depth st node (V ++ [node])) as [[out1 V1] | err]; cbn [bind].
      * destruct Hrec as (W1 & Hr & Hs1 & Hi1 & _). rewrite Hr. cbn [bind].
        assert (Hnode : In node W1) by (apply Hi1, in_or_app; right; now left).
        assert (Hs1' : same_nodes V1 W1).
        { intros x. rewrite (Hs1 x), in_app_iff. cbn.
          split; [ intros [Hx | [<- | []]]; auto | auto ]. }
        specialize (IH (fold_left destroy out1 sc) V1 W1 Hs1').
        destruct (walk_nodes (walk depth st) rest V1) as [[out2 V2] | err];
          cbn [bind]; [ | exact IH ].
        destruct IH as (W2 & Hr2 & Hs2 & Hi2).
        exists W2. rewrite fold_left_app. split; [ exact Hr2 | ].
        split; [ exact Hs2 | ].
        intros x Hx. apply Hi2, Hi1, in_or_app. now left.
      * rewrite Hrec. reflexivity.
Qed.

Lemma remove_groups_like_walk (depth : nat) : remove_like_walk destroy st depth.
Proof.
  induction depth as [ | depth IH ]; intros parent sc V W Hs;
    cbn [walk remove_groups]; [ reflexivity | ].
  pose proof (remove_nodes_like_walk depth IH (get_nodes st parent) sc V W Hs)
    as Hnodes.
  destruct (walk_nodes (walk depth st) (get_nodes st parent) V)
    as [[out V1] | err] eqn:Hw; cbn [bind].
  - destruct Hnodes as (W1 & Hr & Hs1 & Hi1). rewrite Hr. cbn [bind].
    exists W1. rewrite fold_left_app. split; [ reflexivity | ].
    split; [ now apply same_nodes_app | ]. split; [ exact Hi1 | ].
    intros c Hc. apply Hs1.
    now apply (walk_nodes_post _ (walk_post_holds depth st) _ _ _ _ Hw).
  - rewrite Hnodes. reflexivity.
Qed.

(** [remove_groups] destroys the groups of the nodes that
    [walk_depth_first] yields for the same [visited], in the order it yields
    them; it fails when the walk fails; and it leaves in [visited] what the
    walk leaves, but for the node it was called on. *)
Theorem remove_groups_walk_order (depth : nat) (parent : Idx) (sc : Sc)
    (V : list Idx) :
  match walk depth st parent V with
  | Ok (out, V') =>
      exists W', remove_groups destroy depth st parent (sc, V)
                 = Ok (fold_left destroy out sc, W') /\
                 same_nodes V' (W' ++ [parent])
  | Raise err => remove_groups destroy depth st parent (sc, V) = Raise err
  end.
Proof.
  pose proof (remove_groups_like_walk depth parent sc V V (fun x => iff_refl _))
    as Hlike.
  destruct (walk depth st parent V) as [[out V'] | err]; [ | exact Hlike ].
  destruct Hlike as (W' & Hr & Hs & _). eauto.
Qed.

Lemma remove_nodes_skipped (rec : Idx -> Sc * list Idx -> result (Sc * list Idx))
    (ns : list Idx) (sc : Sc) (W : list Idx) :
  (forall c, In c ns -> In c W) -> remove_nodes rec ns (sc, W) = Ok (sc, W).
Proof.
  induction ns as [ | node rest IH ]; intros Hall; cbn [remove_nodes];
    [ reflexivity | ].
  assert (Hm : mem node W = true) by (apply mem_In, Hall; now left).
  rewrite Hm. apply IH. intros c Hc. apply Hall. now right.
Qed.

(** A second call of [remove_groups] on the same node, with the list
    [visited] that the first call left (as happens when the argument is
    omitted both times), destroys the group of that node and nothing else:
    the groups below it are skipped. *)
Theorem remove_groups_second_call (depth depth2 : nat) (parent : Idx)
    (sc sc1 sc2 : Sc) (V V1 : list Idx) :
  remove_groups destroy depth st parent (sc, V) = Ok (sc1, V1) ->
  remove_groups destroy (S depth2) st parent (sc2, V1)
  = Ok (destroy sc2 parent, V1).
Proof.
  intros Hfirst.
  pose proof (remove_groups_like_walk depth parent sc V V (fun x => iff_refl _))
    as Hlike.
  destruct (walk depth st parent V) as [[out V'] | err]; [ | congruence ].
  destruct Hlike as (W' & Hr & _ & _ & Hch).
  assert (W' = V1) by congruence. subst W'.
  cbn [remove_groups]. rewrite remove_nodes_skipped by exact Hch. reflexivity.
Qed.

(** On an acyclic graph, with the stack deeper than the rank of the node
    and an empty [visited], [remove_groups] destroys the group of every node
    reachable from the node exactly once, the node's own group last. *)
Theorem remove_groups_each_once (rank : Idx -> nat) (depth : nat)
    (parent : Idx) (sc : Sc) :
  (forall p c, In c (get_nodes st p) -> (rank c < rank p)%nat) ->
  (rank parent < depth)%nat ->
  exists out W',
    remove_groups destroy depth st parent (sc, [])
      = Ok (fold_left destroy (out ++ [parent]) sc, W') /\
    NoDup (out ++ [parent]) /\
    (forall m, In m (out ++ [parent]) <-> reachable st parent m).
Proof.
  intros Hrank Hlt.
  destruct (walk_dag st rank Hrank depth parent [] Hlt)
    as ([o V'] & Hw & out & Ho & Hnd & Hout & Hv & Hcl).
  cbn [fst snd] in *. subst o.
  pose proof (remove_groups_like_walk depth parent sc [] [] (fun x => iff_refl _))
    as Hlike.
  rewrite Hw in Hlike. destruct Hlike as (W' & Hr & _).
  exists out, W'. split; [ exact Hr | ]. split.
  - apply NoDup_app; [ exact Hnd | repeat constructor; intros [] | ].
    intros m Hm [<- | []]. destruct (Hout _ Hm) as (_ & Hrk & _). lia.
  - intros m. split.
    + intros Hm. apply in_app_iff in Hm. destruct Hm as [Hm | [<- | []]].
      * now apply Hout.
      * constructor.
    + assert (Hclosed : forall p q, reachable st p q ->
                In p (out ++ [parent]) -> In q (out ++ [parent])).
      { induction 1 as [ p | p c q Hc _ IH ]; [ auto | ].
        intros Hp. apply IH.
        assert (Hc' : In c V').
        { apply (Hcl p); [ | exact Hc ].
          apply in_app_iff in Hp. destruct Hp as [Hp | [<- | []]]; auto. }
        apply Hv in Hc'. apply in_or_app.
        destruct Hc' as [[] | [Hc' | ->]]; [ now left | right; now left ]. }
      intros Hreach. apply (Hclosed _ _ Hreach).
      apply in_or_app. right. now left.
Qed.

End Disassembler.

Lemma remove_groups_second_call_witness :
  remove_groups (fun log i => log ++ [i]) 5 diamond "a" ([], [])
    = Ok (["d"; "b"; "c"; "a"]%string, ["b"; "d"; "c"]%string) /\
  remove_groups (fun log i => log ++ [i]) 1 diamond "a" ([], ["b"; "d"; "c"]%string)
    = Ok (["a"%string], ["b"; "d"; "c"]%string).
Proof.
  assert (Hfirst : remove_groups (fun log i => log ++ [i]) 5 diamond "a" ([], [])
                   = Ok (["d"; "b"; "c"; "a"]%string, ["b"; "d"; "c"]%string))
    by reflexivity.
  split; [ exact Hfirst | ].
  apply (remove_groups_second_call _ diamond 5 0 "a"%string [] _ [] []
           _ Hfirst).
Defined.

Lemma remove_groups_each_once_witness :
  exists out W',
    remove_groups (fun log i => log ++ [i]) 5 diamond "a" ([], [])
      = Ok (fold_left (fun log i => log ++ [i]) (out ++ ["a"%string]) [], W') /\
    NoDup (out ++ ["a"%string]) /\
    (forall m, In m (out ++ ["a"%string]) <-> reachable diamond "a" m).
Proof.
  apply (remove_groups_each_once (fun log i => log ++ [i]) diamond diamond_rank
           5 "a"%string []).
  - exact diamond_rank_decreases.
  - cbn. lia.
Defined.

(* ================================================================== *)
(** * The validator *)
(* ================================================================== *)

(** [validate] answers [True] exactly when every item that collides with a
    shape is a line; in particular for no shapes at all. *)
Theorem validate_true_iff {Shape Item : Type} (collidingItems : Shape -> list Item)
    (is_line : Item -> bool) (shapes : list (Idx * Shape)) :
  validate collidingItems is_line shapes = true <->
  (forall i shape x, In (i, shape) shapes -> In x (collidingItems shape) ->
                     is_line x = true).
Proof.
  induction shapes as [ | [k sh] rest IH ]; cbn [validate].
  - split; [ intros _ i shape x [] | reflexivity ].
  - destruct (filter (fun x => negb (is_line x)) (collidingItems sh))
      as [ | y l ] eqn:Hf; cbn [List.length Nat.ltb Nat.leb].
    + rewrite IH. split.
      * intros Hrest i shape x [Heq | Hin] Hx; [ | eauto ].
        inversion Heq; subst. destruct (is_line x) eqn:E; [ reflexivity | ].
        assert (Hin : In x (filter (fun x => negb (is_line x)) (collidingItems shape)))
          by (apply filter_In; split; [ exact Hx | now rewrite E ]).
        rewrite Hf in Hin. destruct Hin.
      * intros Hall i shape x Hin. apply (Hall i shape x). now right.
    + split; [ discriminate | ]. intros Hall.
      assert (Hy : In y (filter (fun x => negb (is_line x)) (collidingItems sh)))
        by (rewrite Hf; now left).
      apply filter_In in Hy. destruct Hy as [Hy Hl].
      rewrite (Hall k sh y (or_introl eq_refl) Hy) in Hl. discriminate.
Qed.

(* ================================================================== *)
(** * The group composite keeps its members inside *)
(* ================================================================== *)

(** Every member of a group composite lies inside the rectangle of the
    composite, at least 5 away from each of its four edges. *)
Theorem GroupWrapper_members_inside (proxies : list (string * Proxy))
    (p : string * Proxy) :
  In p proxies ->
  r_x (GroupWrapper_rect proxies) <= r_x (proxy_box p) - 5 /\
  r_y (GroupWrapper_rect proxies) <= r_y (proxy_box p) - 5 /\
  r_right (proxy_box p) + 5 <= r_right (GroupWrapper_rect proxies) /\
  r_bottom (proxy_box p) + 5 <= r_bottom (GroupWrapper_rect proxies).
Proof.
  intros Hin. rewrite GroupWrapper_rect_eq.
  assert (Hne : map proxy_box proxies <> [])
    by (destruct proxies; [ destruct Hin | cbn; congruence ]).
  destruct (childrenBoundingRect_is_union _ Hne) as [Hall _].
  destruct (Hall (proxy_box p) (in_map proxy_box _ _ Hin)) as (H1 & H2 & H3 & H4).
  revert H1 H2 H3 H4.
  generalize (childrenBoundingRect (map proxy_box proxies)) as u.
  intros u. unfold marginsAdded, r_right, r_bottom. cbn [r_x r_y r_w r_h].
  intros H1 H2 H3 H4. repeat split; lra.
Qed.

Lemma GroupWrapper_members_inside_witness :
  let ps := [("a", mkProxy 0 0 10 10); ("b", mkProxy 20 5 10 30)]%string in
  r_x (GroupWrapper_rect ps) <= 20 - 5 /\
  r_y (GroupWrapper_rect ps) <= 5 - 5 /\
  20 + 10 + 5 <= r_right (GroupWrapper_rect ps) /\
  5 + 30 + 5 <= r_bottom (GroupWrapper_rect ps).
Proof.
  cbv zeta.
  apply (GroupWrapper_members_inside
           [("a", mkProxy 0 0 10 10); ("b", mkProxy 20 5 10 30)]%string
           ("b"%string, mkProxy 20 5 10 30)).
  right. now left.
Defined.

(* ================================================================== *)
(** * The connector renderer only draws *)
(* ================================================================== *)

Section OnlyDraws.
Context {Sc : Type} `{Canvas Sc} {A : Type}.
Variable observe : Sc -> A.
Hypothesis addLine_unobserved : forall sc l, observe (cv_addLine sc l) = observe sc.

Lemma draw_unobserved (parent : Idx) (conns : list (Direction * Idx)) :
  forall sc : Sc,
    observe (fold_left (fun sc '(direction, node) =>
                          cv_addLine sc (connector_line sc parent direction node))
                       conns sc)
    = observe sc.
Proof.
  induction conns as [ | [d c] rest IH ]; intros sc; cbn [fold_left];
    [ reflexivity | ].
  now rewrite IH, addLine_unobserved.
Qed.

Lemma connect_scan_unobserved (rec : Idx -> CState Sc -> result (CState Sc))
    (depth : nat) (nds : store) (parent : Idx) :
  (forall node sc vis sc' vis',
      rec node (sc, vis) = Ok (sc', vis') -> observe sc' = observe sc) ->
  forall yielded conns sc vis conns' sc' vis',
    connect_scan rec depth nds parent yielded conns (sc, vis)
      = Ok (conns', (sc', vis')) ->
    observe sc' = observe sc.
Proof.
  intros Hrec. induction yielded as [ | node rest IH ];
    intros conns sc vis conns' sc' vis' Hscan; cbn [connect_scan] in Hscan.
  - now inversion Hscan.
  - destruct (get_direction_to_child nds parent node) as [dir | err].
    + inv_bind Hscan. inv_bind Hscan. destruct r0 as [sc1 vis1].
      rewrite (IH _ _ _ _ _ _ Hscan).
      destruct (1 <? List.length r)%nat; [ eauto | now inversion Hr0 ].
    + destruct err as [msg | key | ]; try discriminate. eauto.
Qed.

(** [connect_widgets] does nothing to the scene but add lines: whatever of
    the scene [addLine] leaves as it is (the positions and sizes of the
    items, the groups), a call that returns has left as it was. *)
Theorem connect_widgets_only_draws (depth : nat) (nds : store) :
  forall parent sc vis sc' vis',
    connect_widgets depth nds parent (sc, vis) = Ok (sc', vis') ->
    observe sc' = observe sc.
Proof.
  induction depth as [ | depth IH ]; intros parent sc vis sc' vis' Hc;
    cbn [connect_widgets] in Hc; [ discriminate | ].
  destruct (mem parent vis); [ now inversion Hc | ].
  inv_bind Hc. inv_bind Hc. destruct r0 as [conns [sc1 vis1]].
  inversion Hc; subst. clear Hc.
  rewrite draw_unobserved.
  eapply (connect_scan_unobserved _ depth nds parent IH); eauto.
Qed.

End OnlyDraws.

Lemma connect_widgets_only_draws_witness :
  exists sc' vis',
    connect_widgets 5 abc_tree "A" (new_scene abc_shapes, []) = Ok (sc', vis') /\
    (items sc', setPos_calls sc') = (items (new_scene abc_shapes), []).
Proof.
  destruct (connect_widgets 5 abc_tree "A" (new_scene abc_shapes, []))
    as [[sc' vis'] | err] eqn:Hc; [ | vm_compute in Hc; discriminate ].
  exists sc', vis'. split; [ reflexivity | ].
  apply (@connect_widgets_only_draws QtScene QtScene_Canvas _
           (fun sc => (items sc, setPos_calls sc)) (fun sc l => eq_refl)
           _ _ _ _ _ _ _ Hc).
Defined.

(* ================================================================== *)
(** * Termination of the connector renderer *)
(* ================================================================== *)

Section ConnectTermination.
Context {Sc : Type} `{Canvas Sc}.
Variable nds : store.
Variable U : list Idx.
Hypothesis U_children : forall c, In c (all_children nds) -> In c U.

Lemma connect_scan_visited (rec : Idx -> CState Sc -> result (CState Sc))
    (depth : nat) (parent : Idx) :
  (forall node sc vis sc' vis',
      rec node (sc, vis) = Ok (sc', vis') -> incl vis vis') ->
  forall yielded conns sc vis conns' sc' vis',
    connect_scan rec depth nds parent yielded conns (sc, vis)
      = Ok (conns', (sc', vis')) ->
    incl vis vis'.
Proof.
  intros Hrec. induction yielded as [ | node rest IH ];
    intros conns sc vis conns' sc' vis' Hscan; cbn [connect_scan] in Hscan.
  - inversion Hscan; subst. apply incl_refl.
  - destruct (get_direction_to_child nds parent node) as [dir | err].
    + inv_bind Hscan. inv_bind Hscan. destruct r0 as [sc1 vis1].
      eapply incl_tran; [ | eapply IH; eauto ].
      destruct (1 <? List.length r)%nat;
        [ eauto | inversion Hr0; subst; apply incl_refl ].
    + destruct err as [msg | key | ]; try discriminate. eauto.
Qed.

Lemma connect_widgets_visited (depth : nat) :
  forall parent sc vis sc' vis',
    connect_widgets depth nds parent (sc, vis) = Ok (sc', vis') -> incl vis vis'.
Proof.
  induction depth as [ | depth IH ]; intros parent sc vis sc' vis' Hc;
    cbn [connect_widgets] in Hc; [ discriminate | ].
  destruct (mem parent vis).
  - inversion Hc; subst. apply incl_refl.
  - inv_bind Hc. inv_bind Hc. destruct r0 as [conns [sc1 vis1]].
    inversion Hc; subst. clear Hc.
    pose proof (connect_scan_visited _ depth parent IH _ _ _ _ _ _ _ Hr0) as Hi.
    intros x Hx. apply Hi, in_or_app. now left.
Qed.

Lemma connect_scan_total (rec : Idx -> CState Sc -> result (CState Sc))
    (depth : nat) (parent : Idx) :
  (forall node sc vis, In node U ->
     (List.length U + List.length (fresh U vis) + 1 <= depth)%nat ->
     exists s', rec node (sc, vis) = Ok s') ->
  (forall node sc vis sc' vis',
      rec node (sc, vis) = Ok (sc', vis') -> incl vis vis') ->
  forall yielded conns sc vis,
    (List.length U + List.length (fresh U vis) + 1 <= depth)%nat ->
    exists r, connect_scan rec depth nds parent yielded conns (sc, vis) = Ok r.
Proof.
  intros Hrec Hincl. induction yielded as [ | node rest IH ]; intros conns sc vis Hle;
    cbn [connect_scan]; [ eauto | ].
  destruct (get_direction_to_child nds parent node) as [dir | err] eqn:Hdir.
  - assert (Hnode : In node U).
    { apply direction_to_child_Ok in Hdir.
      eapply U_children, get_nodes_all_children, Hdir. }
    destruct (walk_depth_first_total nds U U_children depth node) as [child Hw];
      [ lia | ].
    rewrite Hw. cbn [bind]. destruct (1 <? List.length child)%nat.
    + destruct (Hrec node sc vis Hnode Hle) as [[sc1 vis1] Hr]. rewrite Hr.
      cbn [bind]. apply IH.
      pose proof (fresh_incl_le U _ _ (Hincl _ _ _ _ _ Hr)). lia.
    + cbn [bind]. now apply IH.
  - apply direction_to_child_Raise in Hdir. subst err. now apply IH.
Qed.

Lemma connect_widgets_total_aux (depth : nat) :
  forall parent sc vis,
    In parent U ->
    (List.length U + List.length (fresh U vis) + 1 <= depth)%nat ->
    exists s', connect_widgets depth nds parent (sc, vis) = Ok s'.
Proof.
  induction depth as [ | depth IH ]; intros parent sc vis Hp Hle; [ lia | ].
  cbn [connect_widgets]. destruct (mem parent vis) eqn:Hmem; [ eauto | ].
  apply mem_not_In in Hmem.
  pose proof (fresh_add_lt U _ _ Hp Hmem) as Hlt.
  destruct (walk_depth_first_total nds U U_children depth parent) as [yielded Hw];
    [ lia | ].
  rewrite Hw. cbn [bind].
  destruct (connect_scan_total (connect_widgets depth nds) depth parent IH
              (connect_widgets_visited depth) yielded [] sc (vis ++ [parent]))
    as ([conns [sc1 vis1]] & Hscan); [ lia | ].
  rewrite Hscan. cbn [bind]. eauto.
Qed.

End ConnectTermination.

(** [connect_widgets] returns on any graph, cycles included, when the stack
    is deep enough (twice the number of ids that occur, and one). *)
Theorem connect_widgets_total {Sc : Type} `{Canvas Sc} (nds : store)
    (parent : Idx) (sc : Sc) (vis : list Idx) (k : nat) :
  exists sc' vis',
    connect_widgets (2 * List.length (parent :: all_children nds) + 1 + k)
                    nds parent (sc, vis) = Ok (sc', vis') /\
    incl vis vis'.
Proof.
  destruct (connect_widgets_total_aux nds (parent :: all_children nds)
              (fun c Hc => or_intror Hc)
              (2 * List.length (parent :: all_children nds) + 1 + k)
              parent sc vis) as [[sc' vis'] Hc].
  - now left.
  - pose proof (fresh_length (parent :: all_children nds) vis). lia.
  - exists sc', vis'. split; [ exact Hc | ].
    eapply connect_widgets_visited; eauto.
Qed.
